(** * CompositeWeakMap: a shallow embedding and its verified properties

    The development follows [composite-weak-map.ts]: a weak map keyed by an
    ordered tuple of object references.  JavaScript objects are modelled by
    their identity, the map's private fields by finite maps, [Set] objects by
    insertion-ordered lists, and the host's garbage collector and
    [FinalizationRegistry] by an explicit transition relation. *)

From Stdlib Require Import String Ascii DecimalString DecimalNat.
From stdpp Require Import gmap strings list fin_maps.

(* ===================================================================== *)
(** ** JavaScript values, objects and exceptions *)
(* ===================================================================== *)

(** An object is known by its identity only. *)
Definition ObjRef := nat.

(** [type PartialKey = object]. *)
Definition PartialKey := ObjRef.

(** [interface CompositeKey]: an empty object, minted as [{}]. *)
Definition CompositeKey := ObjRef.

(** [type PartialKeyPos = `${number}/${number}`]. *)
Definition PartialKeyPos := string.

(** The values a [CompositeWeakMap<_, Value>] may hold.  [undefined] is a
    value like any other in JavaScript, and [WeakMap.prototype.get] answers
    with it for a missing entry. *)
Inductive JsValue :=
  | JsUndefined
  | JsNull
  | JsBool (b : bool)
  | JsNumber (z : Z)
  | JsString (s : string)
  | JsObject (o : ObjRef).

(** The result of a call that may [throw new Error(message)]. *)
Inductive Outcome (A : Type) :=
  | Ok (a : A)
  | Throw (message : string).
Arguments Ok {A} a.
Arguments Throw {A} message.

Definition outcome_bind {A B} (o : Outcome A) (k : A → Outcome B) : Outcome B :=
  match o with
  | Ok a => k a
  | Throw e => Throw e
  end.

Notation "'try' x <- e ; k" := (outcome_bind e (fun x => k))
  (at level 10, x pattern, e at level 100, k at level 200).

(* ===================================================================== *)
(** ** [Set<CompositeKey>]: insertion-ordered, without repetition *)
(* ===================================================================== *)

Module JsSet.
(** [Set.prototype.has]. *)
Definition has (s : list CompositeKey) (x : CompositeKey) : bool :=
  bool_decide (x ∈ s).

(** [Set.prototype.add]: a new element goes last, a known one stays put. *)
Definition add (s : list CompositeKey) (x : CompositeKey) : list CompositeKey :=
  if has s x then s else s ++ [x].

(** [Set.prototype.delete]. *)
Definition delete (s : list CompositeKey) (x : CompositeKey) : list CompositeKey :=
  filter (λ y, y ≠ x) s.

(** [Set.prototype.size]. *)
Definition size (s : list CompositeKey) : nat := length s.
End JsSet.

(* ===================================================================== *)
(** ** Module-level helpers of the source *)
(* ===================================================================== *)

(** Decimal rendering of a number inside a template literal. *)
Definition numberToString (n : nat) : string :=
  NilEmpty.string_of_uint (Nat.to_uint n).

(** [createPartialKeyPosition({ index, size })] is [`${index + 1}/${size}`]. *)
Definition createPartialKeyPosition (index size : nat) : PartialKeyPos :=
  (numberToString (index + 1) ++ "/" ++ numberToString size)%string.

(** No character of the string is the separator of a position. *)
Fixpoint slashFree (s : string) : Prop :=
  match s with
  | EmptyString => True
  | String ch s' => ch ≠ "/"%char ∧ slashFree s'
  end.

(** [assertKeysValid]. *)
Definition assertKeysValid (keys : list PartialKey) : Outcome unit :=
  if decide (length keys = 0) then Throw "At least one key is required."
  else Ok tt.

(** The loop of [minimum]: [minimum] and [minimumCount] are the running
    answer, replaced only by a strictly smaller count. *)
Fixpoint minimum_loop {V} (selector : V → nat) (rest : list V)
    (minimum : V) (minimumCount : nat) : V :=
  match rest with
  | [] => minimum
  | value :: rest' =>
      let count := selector value in
      if decide (count < minimumCount)
      then minimum_loop selector rest' value count
      else minimum_loop selector rest' minimum minimumCount
  end.

(** [minimum(array, selector)]. *)
Definition minimum {V} (array : list V) (selector : V → nat) : Outcome V :=
  match array with
  | [] => Throw "Cannot get the minimum of an empty array."
  | first :: rest => Ok (minimum_loop selector rest first (selector first))
  end.

(** [Array.prototype.findIndex]; [None] stands for [-1]. *)
Fixpoint findIndex {V} (p : V → bool) (array : list V) : option nat :=
  match array with
  | [] => None
  | v :: array' => if p v then Some 0 else S <$> findIndex p array'
  end.

(** [array.splice(index, count)] answers with the elements it deleted and
    leaves the others in [array]: the pair is (returned, array afterwards). *)
Definition splice {V} (array : list V) (index count : nat) : list V * list V :=
  (take count (drop index array), take index array ++ drop (index + count) array).

(** [remove(array, value)], with [same] for [===].  The function returns
    what [splice] returns. *)
Definition remove {V} (same : V → V → bool) (array : list V) (value : V)
    : Outcome (list V) :=
  match findIndex (λ v, same v value) array with
  | None => Throw "Value to extract not in array."
  | Some index => Ok (fst (splice array index 1))
  end.

(* ===================================================================== *)
(** ** The state of one [CompositeWeakMap] and of its host *)
(* ===================================================================== *)

(** [new WeakRef(partialKey)]: the reference does not keep its target. *)
Record WeakRef := { weak_target : PartialKey }.

(** [interface FinalizationData]. *)
Record FinalizationData := {
  partialKeyRef : WeakRef;
  partialKeyPos : PartialKeyPos;
  unregisterToken : ObjRef;
}.

(** One [finalizationRegistry.register(target, heldValue, token)] that has
    neither fired nor been unregistered. *)
Record Cell := {
  cell_target : PartialKey;
  cell_heldValue : FinalizationData;
  cell_unregisterToken : ObjRef;
}.

(** A [FinalizationRegistry<FinalizationData>] object: the composite key its
    cleanup closure captured, and its pending registrations. *)
Record FinalizationRegistry := {
  registry_compositeKey : CompositeKey;
  registry_cells : list Cell;
}.

#[global] Instance WeakRef_eq_dec : EqDecision WeakRef.
Proof. solve_decision. Defined.
#[global] Instance FinalizationData_eq_dec : EqDecision FinalizationData.
Proof. solve_decision. Defined.
#[global] Instance Cell_eq_dec : EqDecision Cell.
Proof. solve_decision. Defined.

(** The private fields of the class ([compositeKeyMap], [resultMap],
    [registries]) and what the host knows: the registry objects by identity,
    the objects already garbage-collected, and the next fresh identity. *)
Record State := {
  compositeKeyMap : gmap PartialKey (gmap PartialKeyPos (list CompositeKey));
  resultMap : gmap CompositeKey JsValue;
  registries : gset ObjRef;
  registryHeap : gmap ObjRef FinalizationRegistry;
  collected : gset ObjRef;
  next : ObjRef;
}.

(** [new CompositeWeakMap()] in a host that has allocated [fresh] objects. *)
Definition newCompositeWeakMap (fresh : ObjRef) : State :=
  {| compositeKeyMap := ∅; resultMap := ∅; registries := ∅;
     registryHeap := ∅; collected := ∅; next := fresh |}.

Definition with_compositeKeyMap
    (f : gmap PartialKey (gmap PartialKeyPos (list CompositeKey)) →
         gmap PartialKey (gmap PartialKeyPos (list CompositeKey)))
    (st : State) : State :=
  {| compositeKeyMap := f (compositeKeyMap st); resultMap := resultMap st;
     registries := registries st; registryHeap := registryHeap st;
     collected := collected st; next := next st |}.

Definition with_resultMap
    (f : gmap CompositeKey JsValue → gmap CompositeKey JsValue)
    (st : State) : State :=
  {| compositeKeyMap := compositeKeyMap st; resultMap := f (resultMap st);
     registries := registries st; registryHeap := registryHeap st;
     collected := collected st; next := next st |}.

Definition with_registries (f : gset ObjRef → gset ObjRef) (st : State) : State :=
  {| compositeKeyMap := compositeKeyMap st; resultMap := resultMap st;
     registries := f (registries st); registryHeap := registryHeap st;
     collected := collected st; next := next st |}.

Definition with_registryHeap
    (f : gmap ObjRef FinalizationRegistry → gmap ObjRef FinalizationRegistry)
    (st : State) : State :=
  {| compositeKeyMap := compositeKeyMap st; resultMap := resultMap st;
     registries := registries st; registryHeap := f (registryHeap st);
     collected := collected st; next := next st |}.

Definition with_collected (f : gset ObjRef → gset ObjRef) (st : State) : State :=
  {| compositeKeyMap := compositeKeyMap st; resultMap := resultMap st;
     registries := registries st; registryHeap := registryHeap st;
     collected := f (collected st); next := next st |}.

Definition with_next (f : ObjRef → ObjRef) (st : State) : State :=
  {| compositeKeyMap := compositeKeyMap st; resultMap := resultMap st;
     registries := registries st; registryHeap := registryHeap st;
     collected := collected st; next := f (next st) |}.

Definition with_cells (f : list Cell → list Cell) (r : FinalizationRegistry)
    : FinalizationRegistry :=
  {| registry_compositeKey := registry_compositeKey r;
     registry_cells := f (registry_cells r) |}.

(** Methods run in a state and either return or throw. *)
Definition M (A : Type) : Type := State → Outcome A * State.

Definition ret {A} (a : A) : M A := λ st, (Ok a, st).

Definition bind {A B} (m : M A) (k : A → M B) : M B :=
  λ st, match m st with
        | (Ok a, st') => k a st'
        | (Throw e, st') => (Throw e, st')
        end.

Definition lift {A} (o : Outcome A) : M A := λ st, (o, st).
Definition read {A} (f : State → A) : M A := λ st, (Ok (f st), st).
Definition modify (f : State → State) : M unit := λ st, (Ok tt, f st).

Notation "'let*' x := e 'in' k" := (bind e (fun x => k))
  (at level 10, x pattern, e at level 100, k at level 200).

(** A fresh object: [{}], [new FinalizationRegistry(..)]. *)
Definition alloc : M ObjRef := λ st, (Ok (next st), with_next S st).

(* ===================================================================== *)
(** ** Objects compared by identity inside [getCompositeKey] *)
(* ===================================================================== *)

(** A [Map] or [Set] object met during a lookup is either the one stored in
    the map's structures, known by where it is stored, or one made on the
    spot by [?? new Map()] / [?? new Set()], known by the array index at
    which it was made. *)
Inductive MapRef :=
  | StoredMap (key : PartialKey)
  | NewMap (index : nat).

Inductive SetRef :=
  | StoredSet (owner : MapRef) (pos : PartialKeyPos)
  | NewSet (index : nat).

#[global] Instance MapRef_eq_dec : EqDecision MapRef.
Proof. solve_decision. Defined.
#[global] Instance SetRef_eq_dec : EqDecision SetRef.
Proof. solve_decision. Defined.

Record MapObj := {
  map_ref : MapRef;
  map_entries : gmap PartialKeyPos (list CompositeKey);
}.

Record SetObj := {
  set_ref : SetRef;
  set_values : list CompositeKey;
}.

(** [a === b] on two [Set] objects. *)
Definition same_set (a b : SetObj) : bool :=
  bool_decide (set_ref a = set_ref b).

(* ===================================================================== *)
(** ** The class [CompositeWeakMap] *)
(* ===================================================================== *)

(** [partialKeys.entries()]. *)
Definition entries (partialKeys : list PartialKey) : list (nat * PartialKey) :=
  imap (λ index partialKey, (index, partialKey)) partialKeys.

Module CompositeWeakMap.

(** [private getCompositeKey(partialKeys)]; it reads [this.compositeKeyMap]
    and changes nothing. *)
Definition getCompositeKey (partialKeys : list PartialKey) (st : State)
    : Outcome (option CompositeKey) :=
  let compositeKeyHandles :=
    imap (λ index key,
      match compositeKeyMap st !! key with
      | Some entries => {| map_ref := StoredMap key; map_entries := entries |}
      | None => {| map_ref := NewMap index; map_entries := ∅ |}
      end) partialKeys in
  let partialKeysCandidates :=
    imap (λ keyIndex partialKeyPosMap,
      let partialKeyPos :=
        createPartialKeyPosition keyIndex (length partialKeys) in
      match map_entries partialKeyPosMap !! partialKeyPos with
      | Some values =>
          {| set_ref := StoredSet (map_ref partialKeyPosMap) partialKeyPos;
             set_values := values |}
      | None => {| set_ref := NewSet keyIndex; set_values := [] |}
      end) compositeKeyHandles in
  try fewestPartialKeyCandidates <-
    minimum partialKeysCandidates (λ c, JsSet.size (set_values c));
  try remainingPartialKeysCandidates <-
    remove same_set partialKeysCandidates fewestPartialKeyCandidates;
  Ok (List.find
        (λ candidateCompositeKey,
           forallb (λ otherPartialKeyCandidates,
                      JsSet.has (set_values otherPartialKeyCandidates)
                                candidateCompositeKey)
                   remainingPartialKeysCandidates)
        (set_values fewestPartialKeyCandidates)).

(** [private getOrCreateCompositeKey(partialKeys)]. *)
Definition getOrCreateCompositeKey (partialKeys : list PartialKey)
    : M CompositeKey :=
  let* existingCompositeKey := (λ st, (getCompositeKey partialKeys st, st)) in
  match existingCompositeKey with
  | Some compositeKey => ret compositeKey
  | None => alloc
  end.

(** [finalizationRegistry.register(target, heldValue, unregisterToken)]. *)
Definition register (finalizationRegistry : ObjRef) (target : PartialKey)
    (heldValue : FinalizationData) (token : ObjRef) : M unit :=
  modify (with_registryHeap
    (alter (with_cells (λ cells,
              cells ++ [{| cell_target := target; cell_heldValue := heldValue;
                           cell_unregisterToken := token |}]))
           finalizationRegistry)).

(** [finalizationRegistry.unregister(unregisterToken)] drops every pending
    registration made with that token. *)
Definition unregister (finalizationRegistry : ObjRef) (token : ObjRef)
    : M unit :=
  modify (with_registryHeap
    (alter (with_cells (filter (λ c, cell_unregisterToken c ≠ token)))
           finalizationRegistry)).

(** The inner loop of [setCompositeKey]:
    [for (const otherPartialKey of otherPartialKeys) register(..)]. *)
Fixpoint registerOthers (finalizationRegistry : ObjRef)
    (heldValue : FinalizationData) (otherPartialKeys : list PartialKey)
    : M unit :=
  match otherPartialKeys with
  | [] => ret tt
  | otherPartialKey :: others =>
      let* _ := register finalizationRegistry otherPartialKey heldValue
                         (unregisterToken heldValue) in
      registerOthers finalizationRegistry heldValue others
  end.

(** One turn of the outer loop of [setCompositeKey], for the entry
    [[index, partialKey]].  The [Map] and the [Set] are updated in place in
    the source; here the updated objects are stored back. *)
Definition setCompositeKeyEntry (partialKeys : list PartialKey)
    (compositeKey : CompositeKey) (finalizationRegistry : ObjRef)
    (size index : nat) (partialKey : PartialKey) : M unit :=
  let* partialKeyPosMap :=
    read (λ st, default ∅ (compositeKeyMap st !! partialKey)) in
  let partialKeyPos := createPartialKeyPosition index size in
  let compositeKeys :=
    JsSet.add (default [] (partialKeyPosMap !! partialKeyPos)) compositeKey in
  let* _ := modify (with_compositeKeyMap
    (<[partialKey := <[partialKeyPos := compositeKeys]> partialKeyPosMap]>)) in
  let partialKeyRef := {| weak_target := partialKey |} in
  let otherPartialKeys :=
    filter (λ otherPartialKey, partialKey ≠ otherPartialKey) partialKeys in
  let* unregisterToken := alloc in
  registerOthers finalizationRegistry
    {| partialKeyRef := partialKeyRef; partialKeyPos := partialKeyPos;
       unregisterToken := unregisterToken |}
    otherPartialKeys.

(** The outer loop, over [partialKeys.entries()]. *)
Fixpoint setCompositeKeyLoop (partialKeys : list PartialKey)
    (compositeKey : CompositeKey) (finalizationRegistry : ObjRef)
    (size : nat) (entries : list (nat * PartialKey)) : M unit :=
  match entries with
  | [] => ret tt
  | (index, partialKey) :: entries' =>
      let* _ := setCompositeKeyEntry partialKeys compositeKey
                  finalizationRegistry size index partialKey in
      setCompositeKeyLoop partialKeys compositeKey finalizationRegistry
        size entries'
  end.

(** [private setCompositeKey(partialKeys, compositeKey)]. *)
Definition setCompositeKey (partialKeys : list PartialKey)
    (compositeKey : CompositeKey) : M unit :=
  let* finalizationRegistry := alloc in
  let* _ := modify (with_registryHeap
    (<[finalizationRegistry :=
         {| registry_compositeKey := compositeKey; registry_cells := [] |}]>)) in
  let* _ := modify (with_registries (λ s, {[finalizationRegistry]} ∪ s)) in
  let size := length partialKeys in
  setCompositeKeyLoop partialKeys compositeKey finalizationRegistry size
    (entries partialKeys).

(** The cleanup callback given to [new FinalizationRegistry(..)] by
    [setCompositeKey]; [finalizationRegistry] and [compositeKey] are the
    variables its closure captured. *)
Definition cleanupCallback (finalizationRegistry : ObjRef)
    (compositeKey : CompositeKey) (data : FinalizationData) : M unit :=
  let* partialKey := read (λ st,
    let target := weak_target (partialKeyRef data) in
    if decide (target ∈ collected st) then None else Some target) in
  match partialKey with
  | None => ret tt
  | Some partialKey =>
      let* partialKeyPosMap := read (λ st, compositeKeyMap st !! partialKey) in
      match partialKeyPosMap with
      | None => ret tt
      | Some partialKeyPosMap =>
          match partialKeyPosMap !! partialKeyPos data with
          | None => ret tt
          | Some compositeKeys =>
              let* _ := modify (with_compositeKeyMap
                (<[partialKey :=
                     <[partialKeyPos data :=
                         JsSet.delete compositeKeys compositeKey]>
                       partialKeyPosMap]>)) in
              let* _ := unregister finalizationRegistry
                                   (unregisterToken data) in
              modify (with_registries (λ s, s ∖ {[finalizationRegistry]}))
          end
      end
  end.

(** [public get(partialKeys)]. *)
Definition get (partialKeys : list PartialKey) : M JsValue :=
  let* _ := lift (assertKeysValid partialKeys) in
  let* compositeKey := (λ st, (getCompositeKey partialKeys st, st)) in
  match compositeKey with
  | None => ret JsUndefined
  | Some compositeKey =>
      read (λ st, default JsUndefined (resultMap st !! compositeKey))
  end.

(** [public set(partialKeys, value)]; the returned [this] is the state. *)
Definition set (partialKeys : list PartialKey) (value : JsValue) : M unit :=
  let* _ := lift (assertKeysValid partialKeys) in
  let* compositeKey := getOrCreateCompositeKey partialKeys in
  let* _ := setCompositeKey partialKeys compositeKey in
  modify (with_resultMap (<[compositeKey := value]>)).

(** [public has(partialKeys)]. *)
Definition has (partialKeys : list PartialKey) : M bool :=
  let* _ := lift (assertKeysValid partialKeys) in
  let* compositeKey := (λ st, (getCompositeKey partialKeys st, st)) in
  match compositeKey with
  | None => ret false
  | Some compositeKey =>
      read (λ st, bool_decide (is_Some (resultMap st !! compositeKey)))
  end.

(** [public delete(partialKeys)]; [WeakMap.prototype.delete] tells whether
    the entry was there. *)
Definition delete (partialKeys : list PartialKey) : M bool :=
  let* _ := lift (assertKeysValid partialKeys) in
  let* compositeKey := (λ st, (getCompositeKey partialKeys st, st)) in
  match compositeKey with
  | None => ret false
  | Some compositeKey =>
      let* existed :=
        read (λ st, bool_decide (is_Some (resultMap st !! compositeKey))) in
      let* _ := modify (with_resultMap (base.delete compositeKey)) in
      ret existed
  end.

End CompositeWeakMap.

(* ===================================================================== *)
(** ** The host: garbage collection and finalization *)
(* ===================================================================== *)

Module Host.

(** The collector reclaims the partial key [key]: weak references to it
    are cleared and its [WeakMap] entry goes with it. *)
Definition collect (key : PartialKey) : M unit :=
  modify (λ st, with_collected (λ s, {[key]} ∪ s)
                  (with_compositeKeyMap (base.delete key) st)).

(** The host runs the cleanup callback of [finalizationRegistry] for its
    pending registration number [i], whose target has been reclaimed. The
    registration is consumed, then the callback gets its held value. *)
Definition finalize (finalizationRegistry : ObjRef) (i : nat) : M unit :=
  λ st,
    match registryHeap st !! finalizationRegistry with
    | None => (Ok tt, st)
    | Some r =>
        match registry_cells r !! i with
        | None => (Ok tt, st)
        | Some cell =>
            if decide (cell_target cell ∈ collected st) then
              CompositeWeakMap.cleanupCallback finalizationRegistry
                (registry_compositeKey r) (cell_heldValue cell)
                (with_registryHeap
                   (alter (with_cells (base.delete i)) finalizationRegistry)
                   st)
            else (Ok tt, st)
        end
    end.

End Host.

(** The state a call leaves behind, whether it returned or threw. *)
Definition exec {A} (m : M A) (st : State) : State := snd (m st).

(** The contents of the candidate set stored for [key] at [pos]; empty when
    either level is missing. *)
Definition lookupIn
    (keyMap : gmap PartialKey (gmap PartialKeyPos (list CompositeKey)))
    (key : PartialKey) (pos : PartialKeyPos) : list CompositeKey :=
  default [] (keyMap !! key ≫= λ entries, entries !! pos).

Definition lookupSet (st : State) (key : PartialKey) (pos : PartialKeyPos)
    : list CompositeKey :=
  lookupIn (compositeKeyMap st) key pos.

(** The contents of the candidate sets fetched for a tuple, in order. *)
Definition candidates (partialKeys : list PartialKey) (st : State)
    : list (list CompositeKey) :=
  imap (λ index key,
          lookupSet st key
            (createPartialKeyPosition index (length partialKeys)))
       partialKeys.

(** The set [minimum] picks among the fetched ones. *)
Definition pivot (sets : list (list CompositeKey)) : list CompositeKey :=
  match sets with
  | [] => []
  | first :: rest => minimum_loop JsSet.size rest first (JsSet.size first)
  end.

(** The pending registrations of a registry object. *)
Definition cellsOf (st : State) (finalizationRegistry : ObjRef) : list Cell :=
  default [] (registry_cells <$> registryHeap st !! finalizationRegistry).

(** [r] splits [l] as its first element of least count. *)
Definition first_least {V} (selector : V → nat) (l : list V) (r : V)
    (pre post : list V) : Prop :=
  l = pre ++ r :: post ∧
  Forall (λ x, selector r < selector x) pre ∧
  Forall (λ x, selector r ≤ selector x) post.

(** The [Set] object fetched for [key] at index [keyIndex] of a tuple of
    length [size]: both [map] calls of [getCompositeKey] in one. *)
Definition fetch (st : State) (size keyIndex : nat) (key : PartialKey)
    : SetObj :=
  let partialKeyPosMap :=
    match compositeKeyMap st !! key with
    | Some entries => {| map_ref := StoredMap key; map_entries := entries |}
    | None => {| map_ref := NewMap keyIndex; map_entries := ∅ |}
    end in
  let partialKeyPos := createPartialKeyPosition keyIndex size in
  match map_entries partialKeyPosMap !! partialKeyPos with
  | Some values =>
      {| set_ref := StoredSet (map_ref partialKeyPosMap) partialKeyPos;
         set_values := values |}
  | None => {| set_ref := NewSet keyIndex; set_values := [] |}
  end.

(** The contents of a [Set] object as a function of its identity. *)
Definition valuesAt (st : State) (ref : SetRef) : list CompositeKey :=
  match ref with
  | StoredSet (StoredMap key) pos => lookupSet st key pos
  | _ => []
  end.

(** What one turn of the loop of [setCompositeKey] does to
    [compositeKeyMap]. *)
Definition entryMap (compositeKey : CompositeKey) (size : nat)
    (keyMap : gmap PartialKey (gmap PartialKeyPos (list CompositeKey)))
    (entry : nat * PartialKey)
    : gmap PartialKey (gmap PartialKeyPos (list CompositeKey)) :=
  let partialKeyPosMap := default ∅ (keyMap !! entry.2) in
  let partialKeyPos := createPartialKeyPosition entry.1 size in
  <[entry.2 :=
      <[partialKeyPos :=
          JsSet.add (default [] (partialKeyPosMap !! partialKeyPos))
                    compositeKey]> partialKeyPosMap]> keyMap.

(** The registration [setCompositeKey] makes on [target] for the key
    [partialKey] found at [index]. *)
Definition watch (size : nat) (token : ObjRef) (index : nat)
    (partialKey target : PartialKey) : Cell :=
  {| cell_target := target;
     cell_heldValue :=
       {| partialKeyRef := {| weak_target := partialKey |};
          partialKeyPos := createPartialKeyPosition index size;
          unregisterToken := token |};
     cell_unregisterToken := token |}.

(** The registrations of one turn of the loop, in order. *)
Definition entryCells (partialKeys : list PartialKey) (size : nat)
    (token : ObjRef) (index : nat) (partialKey : PartialKey) : list Cell :=
  watch size token index partialKey <$>
    filter (λ otherPartialKey, partialKey ≠ otherPartialKey) partialKeys.

(** The registrations of the whole loop; the turns draw their tokens one
    after the other, starting from [token]. *)
Fixpoint loopCells (partialKeys : list PartialKey) (size : nat)
    (token : ObjRef) (entries : list (nat * PartialKey)) : list Cell :=
  match entries with
  | [] => []
  | (index, partialKey) :: entries' =>
      entryCells partialKeys size token index partialKey ++
      loopCells partialKeys size (S token) entries'
  end.

(** The state after the loop of [setCompositeKey]. *)
Definition afterLoop (partialKeys : list PartialKey)
    (compositeKey : CompositeKey) (finalizationRegistry : ObjRef)
    (size : nat) (entries : list (nat * PartialKey)) (st : State) : State :=
  {| compositeKeyMap := foldl (entryMap compositeKey size) (compositeKeyMap st) entries;
     resultMap := resultMap st;
     registries := registries st;
     registryHeap :=
       alter (with_cells (λ cells,
                cells ++ loopCells partialKeys size (next st) entries))
             finalizationRegistry (registryHeap st);
     collected := collected st;
     next := length entries + next st |}.

(** The state after [setCompositeKey(partialKeys, compositeKey)]: the new
    registry takes the next identity, the tokens the ones after it. *)
Definition afterSetCompositeKey (partialKeys : list PartialKey)
    (compositeKey : CompositeKey) (st : State) : State :=
  {| compositeKeyMap :=
       foldl (entryMap compositeKey (length partialKeys))
             (compositeKeyMap st) (entries partialKeys);
     resultMap := resultMap st;
     registries := {[next st]} ∪ registries st;
     registryHeap :=
       <[next st :=
           {| registry_compositeKey := compositeKey;
              registry_cells :=
                loopCells partialKeys (length partialKeys) (S (next st))
                          (entries partialKeys) |}]> (registryHeap st);
     collected := collected st;
     next := length partialKeys + S (next st) |}.

(** The place in [compositeKeyMap] a turn of the loop writes to. *)
Definition entryPlace (size : nat) (entry : nat * PartialKey)
    : PartialKey * PartialKeyPos :=
  (entry.2, createPartialKeyPosition entry.1 size).

(** The handle [getOrCreateCompositeKey] answers with for a non-empty
    tuple, and the state it leaves: the first handle of the pivot set, or a
    fresh object when the pivot set is empty. *)
Definition resolveOrMint (partialKeys : list PartialKey) (st : State)
    : CompositeKey * State :=
  match head (pivot (candidates partialKeys st)) with
  | Some compositeKey => (compositeKey, st)
  | None => (next st, with_next S st)
  end.

(** The state after [set(partialKeys, value)] on a non-empty tuple. *)
Definition afterSet (partialKeys : list PartialKey) (value : JsValue)
    (st : State) : State :=
  with_resultMap (<[(resolveOrMint partialKeys st).1 := value]>)
    (afterSetCompositeKey partialKeys (resolveOrMint partialKeys st).1
       (resolveOrMint partialKeys st).2).

(* ===================================================================== *)
(** ** Runs of the program and of its host *)
(* ===================================================================== *)

(** What can happen to a map: a call of a public method, the collection of
    a partial key, the cleanup callback of a pending registration. *)
Inductive Event :=
  | CallGet (partialKeys : list PartialKey)
  | CallSet (partialKeys : list PartialKey) (value : JsValue)
  | CallHas (partialKeys : list PartialKey)
  | CallDelete (partialKeys : list PartialKey)
  | Collect (key : PartialKey)
  | Finalize (finalizationRegistry : ObjRef) (i : nat).

Definition run (ev : Event) (st : State) : State :=
  match ev with
  | CallGet partialKeys => exec (CompositeWeakMap.get partialKeys) st
  | CallSet partialKeys value => exec (CompositeWeakMap.set partialKeys value) st
  | CallHas partialKeys => exec (CompositeWeakMap.has partialKeys) st
  | CallDelete partialKeys => exec (CompositeWeakMap.delete partialKeys) st
  | Collect key => exec (Host.collect key) st
  | Finalize finalizationRegistry i =>
      exec (Host.finalize finalizationRegistry i) st
  end.

(** A caller can only pass objects it still holds; an object is collected
    once; a cleanup callback runs for a registration whose target has been
    collected. *)
Definition enabled (ev : Event) (st : State) : Prop :=
  match ev with
  | CallGet partialKeys | CallSet partialKeys _
  | CallHas partialKeys | CallDelete partialKeys =>
      Forall (λ key, key ∉ collected st) partialKeys
  | Collect key => key ∉ collected st
  | Finalize finalizationRegistry i =>
      ∃ cell, cellsOf st finalizationRegistry !! i = Some cell ∧
              cell_target cell ∈ collected st
  end.

Inductive reachable : State → Prop :=
  | reachable_new fresh : reachable (newCompositeWeakMap fresh)
  | reachable_step st ev :
      reachable st → enabled ev st → reachable (run ev st).

(** The state after a list of events, oldest first. *)
Definition runAll (evs : list Event) (st : State) : State :=
  foldl (λ s ev, run ev s) st evs.

(** Every event of the list is enabled when its turn comes. *)
Fixpoint enabledAll (evs : list Event) (st : State) : Prop :=
  match evs with
  | [] => True
  | ev :: evs' => enabled ev st ∧ enabledAll evs' (run ev st)
  end.

(* ===================================================================== *)
(** ** Scenarios *)
(* ===================================================================== *)

Module Scenario.
(** Four caller-owned objects and a map made after them. *)
Definition first : PartialKey := 1.
Definition second : PartialKey := 2.
Definition third : PartialKey := 3.
Definition fourth : PartialKey := 4.
Definition empty : State := newCompositeWeakMap 10.

(** [map.set([third, fourth], 'w'); map.set([first, second], 'v')]. *)
Definition twoBindings : State :=
  runAll [CallSet [third; fourth] (JsString "w");
          CallSet [first; second] (JsString "v")] empty.

(** [map.set([first], undefined)]. *)
Definition undefinedStored : State :=
  runAll [CallSet [first] JsUndefined] empty.

(** [map.set([first, second, third], 'x')]. *)
Definition triple : State :=
  runAll [CallSet [first; second; third] (JsString "x")] empty.

(** The registry and the handle of that one binding. *)
Definition tripleHandle : CompositeKey := 10.
Definition tripleRegistry : ObjRef := 11.

(** Then [second] is collected and the first registration that targets
    it has its callback run. *)
Definition tripleFired : State :=
  runAll [Collect second; Finalize tripleRegistry 0] triple.
End Scenario.

(** The candidate set a held value points at, if its key is indexed at the
    carried position. *)
Definition lookupSetOpt (st : State) (data : FinalizationData)
    : option (list CompositeKey) :=
  compositeKeyMap st !! weak_target (partialKeyRef data) ≫=
    λ entries, entries !! partialKeyPos data.

(** A binding is cleaned when its registry has no pending registration
    and its handle is in no candidate set. *)
Definition Cleaned (st : State) (finalizationRegistry : ObjRef)
    (compositeKey : CompositeKey) : Prop :=
  cellsOf st finalizationRegistry = [] ∧
  ∀ key pos, compositeKey ∉ lookupSet st key pos.

(* ===================================================================== *)
(** ** Further notions used to describe the code *)
(* ===================================================================== *)

(** The places of [compositeKeyMap] that [setCompositeKey] writes to for a
    tuple: each key with the descriptor of its index. *)
Definition places (partialKeys : list PartialKey)
    : list (PartialKey * PartialKeyPos) :=
  entryPlace (length partialKeys) <$> entries partialKeys.

(** [compositeKey] is stored as a candidate at [place]. *)
Definition indexedAt
    (keyMap : gmap PartialKey (gmap PartialKeyPos (list CompositeKey)))
    (compositeKey : CompositeKey) (place : PartialKey * PartialKeyPos) : Prop :=
  ∃ posMap sets,
    keyMap !! place.1 = Some posMap ∧ posMap !! place.2 = Some sets ∧
    compositeKey ∈ sets.

Module MoreScenarios.
(** The map that holds [first; second; third], after [second] and then
    [first] have been collected and before any cleanup has run. *)
Definition tripleTwoCollected : State :=
  runAll [Collect Scenario.second; Collect Scenario.first] Scenario.triple.
End MoreScenarios.

(** What a registration tells apart from its token: the target, the key of
    the payload and the position of the payload. *)
Definition watchShape (cell : Cell) : PartialKey * PartialKey * PartialKeyPos :=
  (cell_target cell,
   weak_target (partialKeyRef (cell_heldValue cell)),
   partialKeyPos (cell_heldValue cell)).

(** A registration as [setCompositeKey] makes them: it is registered under
    the token its payload carries, it does not watch the key of its own
    payload, and its payload carries the descriptor of an index inside a
    tuple. *)
Definition wellFormedCell (cell : Cell) : Prop :=
  cell_unregisterToken cell = unregisterToken (cell_heldValue cell) ∧
  cell_target cell ≠ weak_target (partialKeyRef (cell_heldValue cell)) ∧
  ∃ index size,
    index < size ∧
    partialKeyPos (cell_heldValue cell) = createPartialKeyPosition index size.

(* ===================================================================== *)
(** ** [minimum]: the first element of least count *)
(* ===================================================================== *)

Section Minimum.
Context {V : Type} (selector : V → nat).

Lemma minimum_loop_first_least rest : ∀ pre m mid,
  Forall (λ x, selector m < selector x) pre →
  Forall (λ x, selector m ≤ selector x) mid →
  ∃ pre' post',
    first_least selector (pre ++ m :: mid ++ rest)
      (minimum_loop selector rest m (selector m)) pre' post'.
Proof.
  induction rest as [|v rest IH]; intros pre m mid Hpre Hmid; simpl.
  - exists pre, mid. rewrite app_nil_r. by split.
  - case_decide as Hlt.
    + destruct (IH (pre ++ m :: mid) v []) as (pre' & post' & Heq & H1 & H2).
      * apply Forall_app; split; [|apply Forall_cons; split].
        -- eapply Forall_impl; [exact Hpre|]. simpl; intros; lia.
        -- done.
        -- eapply Forall_impl; [exact Hmid|]. simpl; intros; lia.
      * constructor.
      * exists pre', post'. split; [|done].
        rewrite <- Heq. simpl. by rewrite <- !app_assoc.
    + destruct (IH pre m (mid ++ [v])) as (pre' & post' & Heq & H1 & H2).
      * done.
      * apply Forall_app; split; [done|]. apply Forall_singleton. lia.
      * exists pre', post'. split; [|done].
        rewrite <- Heq. by rewrite <- !app_assoc.
Qed.

Lemma first_least_unique l r1 pre1 post1 r2 pre2 post2 :
  first_least selector l r1 pre1 post1 → first_least selector l r2 pre2 post2 →
  pre1 = pre2 ∧ r1 = r2 ∧ post1 = post2.
Proof.
  revert l pre2.
  induction pre1 as [|x pre1 IH]; intros l pre2 (E1 & A1 & B1) (E2 & A2 & B2).
  - destruct pre2 as [|y pre2]; simpl in *; subst l.
    + by inversion E2.
    + inversion E2; subst.
      apply Forall_cons in A2 as [A2 _].
      assert (r2 ∈ pre2 ++ r2 :: post2) as Hin
        by (apply elem_of_app; right; left).
      rewrite Forall_forall in B1. apply B1 in Hin. lia.
  - destruct pre2 as [|y pre2]; simpl in *; subst l.
    + inversion E2; subst.
      apply Forall_cons in A1 as [A1 _].
      assert (r1 ∈ pre1 ++ r1 :: post1) as Hin
        by (apply elem_of_app; right; left).
      rewrite Forall_forall in B2. apply B2 in Hin. lia.
    + inversion E2; subst.
      apply Forall_cons in A1 as [_ A1]. apply Forall_cons in A2 as [_ A2].
      destruct (IH (pre1 ++ r1 :: post1) pre2) as (E & E' & E''); [done..|].
      by rewrite E, E', E''.
Qed.

Lemma minimum_first_least first rest :
  ∃ pre post,
    first_least selector (first :: rest)
      (minimum_loop selector rest first (selector first)) pre post.
Proof.
  destruct (minimum_loop_first_least rest [] first []) as (pre & post & H);
    [constructor..|].
  by exists pre, post.
Qed.

Lemma first_least_elem l r pre post :
  first_least selector l r pre post → r ∈ l ∧ Forall (λ x, selector r ≤ selector x) l.
Proof.
  intros (-> & A & B). split; [apply elem_of_app; right; left|].
  apply Forall_app; split; [|apply Forall_cons; split; [lia|done]].
  eapply Forall_impl; [exact A|]. simpl; intros; lia.
Qed.
End Minimum.

(** [minimum] commutes with a view of the elements that keeps the count. *)
Lemma minimum_loop_fmap {V W} (g : V → W) (selector : W → nat) rest :
  ∀ m n,
    g (minimum_loop (λ x, selector (g x)) rest m n) =
    minimum_loop selector (g <$> rest) (g m) n.
Proof.
  induction rest as [|v rest IH]; intros m n; simpl; [done|].
  case_decide; apply IH.
Qed.

(* ===================================================================== *)
(** ** Position descriptors *)
(* ===================================================================== *)

Lemma string_of_uint_slashFree d : slashFree (NilEmpty.string_of_uint d).
Proof. induction d; simpl; (split; [discriminate|done]) || done. Qed.

Lemma numberToString_inj n m : numberToString n = numberToString m → n = m.
Proof.
  unfold numberToString. intros H.
  apply (f_equal NilEmpty.uint_of_string) in H.
  rewrite !NilEmpty.usu in H. injection H as H.
  apply (f_equal Nat.of_uint) in H. by rewrite !Unsigned.of_to in H.
Qed.

Lemma append_slash_inj s1 : ∀ s2 t1 t2,
  slashFree s1 → slashFree s2 →
  (s1 ++ "/" ++ t1 = s2 ++ "/" ++ t2)%string → s1 = s2 ∧ t1 = t2.
Proof.
  induction s1 as [|ch s1 IH]; intros [|ch' s2] t1 t2 H1 H2 Heq;
    simpl in *.
  - by injection Heq.
  - injection Heq as <- _. by destruct H2.
  - injection Heq as -> _. by destruct H1.
  - injection Heq as -> Heq. destruct H1 as [_ H1], H2 as [_ H2].
    by destruct (IH s2 t1 t2 H1 H2 Heq) as [-> ->].
Qed.

(** A position descriptor tells the index and the length it was made of. *)
Lemma createPartialKeyPosition_inj index size index' size' :
  createPartialKeyPosition index size =
    createPartialKeyPosition index' size' →
  index = index' ∧ size = size'.
Proof.
  unfold createPartialKeyPosition. intros H.
  apply append_slash_inj in H as [Hi Hs];
    [|apply string_of_uint_slashFree..].
  apply numberToString_inj in Hi, Hs. lia.
Qed.

(* ===================================================================== *)
(** ** Array helpers *)
(* ===================================================================== *)

Lemma findIndex_Some {V} (p : V → bool) (array : list V) index :
  findIndex p array = Some index →
  ∃ x, array !! index = Some x ∧ p x = true.
Proof.
  revert index. induction array as [|v array IH]; intros index; simpl; [done|].
  destruct (p v) eqn:Hp.
  - intros [= <-]. by exists v.
  - destruct (findIndex p array) as [j|]; simpl; [|done].
    intros [= <-]. destruct (IH j eq_refl) as (x & ? & ?). by exists x.
Qed.

Lemma findIndex_elem {V} (p : V → bool) (array : list V) x :
  x ∈ array → p x = true → is_Some (findIndex p array).
Proof.
  induction 1 as [x array|x v array _ IH]; intros Hp; simpl.
  - rewrite Hp. by eexists.
  - destruct (p v); [by eexists|]. destruct (IH Hp) as [j ->]. by eexists.
Qed.

Lemma splice_one {V} (array : list V) index x :
  array !! index = Some x → fst (splice array index 1) = [x].
Proof.
  intros H. unfold splice; simpl. rewrite (drop_S _ _ _ H). simpl.
  by rewrite take_0.
Qed.

(** What [remove] hands back is the removed element alone, provided that
    elements of equal identity are equal. *)
Lemma remove_returns_removed {V} (same : V → V → bool) (array : list V) value :
  value ∈ array →
  same value value = true →
  (∀ x, x ∈ array → same x value = true → x = value) →
  remove same array value = Ok [value].
Proof.
  intros Hin Hrefl Huniq. unfold remove.
  destruct (findIndex_elem (λ v, same v value) array value Hin Hrefl) as [i Hi].
  rewrite Hi. destruct (findIndex_Some _ _ _ Hi) as (x & Hx & Hsame).
  rewrite (splice_one _ _ _ Hx). f_equal. f_equal.
  apply Huniq; [|done]. by eapply list_elem_of_lookup_2.
Qed.

Lemma find_head (p : CompositeKey → bool) (l : list CompositeKey) :
  (∀ x, x ∈ l → p x = true) → List.find p l = head l.
Proof.
  destruct l as [|x l]; simpl; [done|]. intros H.
  rewrite H; [done|]. by left.
Qed.

(* ===================================================================== *)
(** ** What [getCompositeKey] computes *)
(* ===================================================================== *)

Section Resolution.
Variable st : State.

Lemma fetch_values size keyIndex key :
  set_values (fetch st size keyIndex key) =
  lookupSet st key (createPartialKeyPosition keyIndex size).
Proof.
  unfold fetch, lookupSet, lookupIn.
  destruct (compositeKeyMap st !! key) as [entries|]; simpl.
  - by destruct (entries !! _).
  - by rewrite lookup_empty.
Qed.

Lemma fetch_valuesAt size keyIndex key :
  set_values (fetch st size keyIndex key) =
  valuesAt st (set_ref (fetch st size keyIndex key)).
Proof.
  unfold fetch, valuesAt, lookupSet, lookupIn.
  destruct (compositeKeyMap st !! key) as [entries|] eqn:E; simpl.
  - destruct (entries !! _) eqn:E'; simpl; [|done].
    by rewrite E; simpl; rewrite E'.
  - by rewrite lookup_empty.
Qed.

Lemma fetched_same_set size (x y : SetObj) i j ki kj :
  x = fetch st size i ki → y = fetch st size j kj →
  same_set x y = true → x = y.
Proof.
  intros -> -> Hsame. unfold same_set in Hsame.
  apply bool_decide_eq_true in Hsame.
  pose proof (fetch_valuesAt size i ki) as Hx.
  pose proof (fetch_valuesAt size j kj) as Hy.
  destruct (fetch st size i ki) as [rx vx], (fetch st size j kj) as [ry vy].
  simpl in *. congruence.
Qed.

Lemma getCompositeKey_fetch partialKeys :
  imap (λ keyIndex partialKeyPosMap,
    let partialKeyPos :=
      createPartialKeyPosition keyIndex (length partialKeys) in
    match map_entries partialKeyPosMap !! partialKeyPos with
    | Some values =>
        {| set_ref := StoredSet (map_ref partialKeyPosMap) partialKeyPos;
           set_values := values |}
    | None => {| set_ref := NewSet keyIndex; set_values := [] |}
    end)
    (imap (λ index key,
      match compositeKeyMap st !! key with
      | Some entries => {| map_ref := StoredMap key; map_entries := entries |}
      | None => {| map_ref := NewMap index; map_entries := ∅ |}
      end) partialKeys)
  = imap (fetch st (length partialKeys)) partialKeys.
Proof.
  apply list_eq; intros i. rewrite !list_lookup_imap.
  by destruct (partialKeys !! i).
Qed.

Lemma fetch_candidates partialKeys :
  set_values <$> imap (fetch st (length partialKeys)) partialKeys =
  candidates partialKeys st.
Proof.
  apply list_eq; intros i. unfold candidates.
  rewrite list_lookup_fmap, !list_lookup_imap.
  destruct (partialKeys !! i); simpl; [|done].
  by rewrite fetch_values.
Qed.

(** Resolution answers with the first handle of the pivot set, and with
    nothing when the pivot set is empty. *)
Lemma getCompositeKey_head key keys :
  CompositeWeakMap.getCompositeKey (key :: keys) st =
  Ok (head (pivot (candidates (key :: keys) st))).
Proof.
  unfold CompositeWeakMap.getCompositeKey.
  rewrite getCompositeKey_fetch.
  set (size := length (key :: keys)).
  rewrite <- fetch_candidates. fold size.
  destruct (imap (fetch st size) (key :: keys)) as [|first rest] eqn:Harr.
  { apply (f_equal length) in Harr. by rewrite length_imap in Harr. }
  unfold minimum, outcome_bind.
  set (fewest := minimum_loop _ rest first _).
  assert (fewest ∈ first :: rest) as Hin.
  { destruct (minimum_first_least (λ c, JsSet.size (set_values c))
                first rest) as (pre & post & Hfl).
    by apply first_least_elem in Hfl as [? _]. }
  rewrite (remove_returns_removed same_set (first :: rest) fewest Hin).
  - simpl. unfold fewest.
    rewrite <- (minimum_loop_fmap set_values JsSet.size).
    f_equal. apply find_head. intros x Hx.
    rewrite andb_true_r. by apply bool_decide_eq_true.
  - by apply bool_decide_eq_true.
  - intros x Hx Hsame. rewrite <- Harr in Hx, Hin.
    apply list_elem_of_lookup in Hx as [i Hi].
    apply list_elem_of_lookup in Hin as [j Hj].
    rewrite list_lookup_imap in Hi, Hj.
    destruct ((key :: keys) !! i) as [ki|] eqn:Ei; [|done].
    destruct ((key :: keys) !! j) as [kj|] eqn:Ej; [|done].
    simpl in Hi, Hj. injection Hi as Hi. injection Hj as Hj.
    by eapply fetched_same_set.
Qed.
End Resolution.

(* ===================================================================== *)
(** ** What [setCompositeKey] does *)
(* ===================================================================== *)

Lemma State_eq (s t : State) :
  compositeKeyMap s = compositeKeyMap t → resultMap s = resultMap t →
  registries s = registries t → registryHeap s = registryHeap t →
  collected s = collected t → next s = next t → s = t.
Proof. destruct s, t; simpl; congruence. Qed.

Lemma alter_with_cells_twice f g i (heap : gmap ObjRef FinalizationRegistry) :
  alter (with_cells f) i (alter (with_cells g) i heap) =
  alter (with_cells (f ∘ g)) i heap.
Proof.
  rewrite alter_alter_eq. apply alter_ext. intros x _. done.
Qed.

Lemma alter_with_cells_id f i (heap : gmap ObjRef FinalizationRegistry) :
  (∀ cells, f cells = cells) → alter (with_cells f) i heap = heap.
Proof.
  intros Hf. apply map_eq; intros j. rewrite lookup_alter.
  case_decide; [subst|done].
  destruct (heap !! j) as [[ck cells]|]; simpl; [|done].
  unfold with_cells; simpl. by rewrite Hf.
Qed.

Lemma registerOthers_run r heldValue others st :
  CompositeWeakMap.registerOthers r heldValue others st =
  (Ok tt,
   with_registryHeap
     (alter (with_cells (λ cells,
        cells ++ ((λ target,
          {| cell_target := target; cell_heldValue := heldValue;
             cell_unregisterToken := unregisterToken heldValue |}) <$> others)))
        r) st).
Proof.
  revert st. induction others as [|o others IH]; intros st; simpl.
  - unfold ret. f_equal. destruct st; unfold with_registryHeap; simpl.
    f_equal. symmetry. apply alter_with_cells_id. intros; apply app_nil_r.
  - unfold bind, CompositeWeakMap.register, modify. rewrite IH. f_equal.
    destruct st; unfold with_registryHeap; simpl. f_equal.
    rewrite alter_with_cells_twice. apply alter_ext. intros x _.
    unfold with_cells; simpl. f_equal. by rewrite <- app_assoc.
Qed.

Lemma setCompositeKeyEntry_run keys ck r size index key st :
  CompositeWeakMap.setCompositeKeyEntry keys ck r size index key st =
  (Ok tt, afterLoop keys ck r size [(index, key)] st).
Proof.
  unfold CompositeWeakMap.setCompositeKeyEntry, bind, read, modify, alloc.
  rewrite registerOthers_run. f_equal.
  apply State_eq; simpl; try done.
  apply alter_ext. intros x _. unfold with_cells; simpl.
  by rewrite app_nil_r.
Qed.

Lemma afterLoop_cons keys ck r size entry entries st :
  afterLoop keys ck r size entries (afterLoop keys ck r size [entry] st) =
  afterLoop keys ck r size (entry :: entries) st.
Proof.
  destruct entry as [index key].
  apply State_eq; simpl; try done.
  rewrite alter_with_cells_twice. apply alter_ext. intros x _.
  unfold with_cells; simpl. by rewrite app_nil_r, <- app_assoc.
Qed.

Lemma setCompositeKeyLoop_run keys ck r size entries st :
  CompositeWeakMap.setCompositeKeyLoop keys ck r size entries st =
  (Ok tt, afterLoop keys ck r size entries st).
Proof.
  revert st. induction entries as [|[index key] entries IH]; intros st; simpl.
  - unfold ret. f_equal. apply State_eq; simpl; try done.
    symmetry. apply alter_with_cells_id. intros; apply app_nil_r.
  - unfold bind. rewrite setCompositeKeyEntry_run, IH.
    by rewrite afterLoop_cons.
Qed.

Lemma setCompositeKey_run keys ck st :
  CompositeWeakMap.setCompositeKey keys ck st =
  (Ok tt, afterSetCompositeKey keys ck st).
Proof.
  unfold CompositeWeakMap.setCompositeKey, bind, alloc, modify.
  rewrite setCompositeKeyLoop_run. f_equal.
  apply State_eq; simpl; try done.
  - apply map_eq; intros j. rewrite lookup_alter.
    case_decide; [subst|by rewrite !lookup_insert_ne].
    by rewrite !lookup_insert_eq.
  - unfold entries. by rewrite length_imap.
Qed.

(** ** The candidate sets after [setCompositeKey] *)

Lemma JsSet_add_elem s x : x ∈ JsSet.add s x.
Proof.
  unfold JsSet.add, JsSet.has. case_bool_decide; [done|].
  apply elem_of_app; right. by left.
Qed.

Lemma JsSet_add_known s x : x ∈ s → JsSet.add s x = s.
Proof.
  intros H. unfold JsSet.add, JsSet.has. by rewrite bool_decide_eq_true_2.
Qed.

Lemma JsSet_add_idem s x : JsSet.add (JsSet.add s x) x = JsSet.add s x.
Proof. apply JsSet_add_known, JsSet_add_elem. Qed.

Lemma JsSet_add_size s x : JsSet.size s ≤ JsSet.size (JsSet.add s x).
Proof.
  unfold JsSet.add, JsSet.size. destruct (JsSet.has s x); [done|].
  rewrite length_app. lia.
Qed.

Lemma lookupIn_entryMap ck size keyMap entry key pos :
  lookupIn (entryMap ck size keyMap entry) key pos =
  if decide ((key, pos) = entryPlace size entry)
  then JsSet.add (lookupIn keyMap key pos) ck
  else lookupIn keyMap key pos.
Proof.
  destruct entry as [index k]. unfold entryMap, entryPlace, lookupIn; simpl.
  case_decide as Heq.
  - injection Heq as -> ->. rewrite lookup_insert_eq; simpl.
    rewrite lookup_insert_eq; simpl.
    by destruct (keyMap !! k).
  - destruct (decide (key = k)) as [->|Hk].
    + rewrite lookup_insert_eq; simpl.
      rewrite lookup_insert_ne by congruence.
      destruct (keyMap !! k); simpl; [done|]. by rewrite lookup_empty.
    + by rewrite lookup_insert_ne.
Qed.

Lemma lookupIn_foldl_entryMap ck size es : ∀ keyMap key pos,
  lookupIn (foldl (entryMap ck size) keyMap es) key pos =
  if decide ((key, pos) ∈ entryPlace size <$> es)
  then JsSet.add (lookupIn keyMap key pos) ck
  else lookupIn keyMap key pos.
Proof.
  induction es as [|e es IH]; intros keyMap key pos.
  - case_decide as H; [|done]. by apply not_elem_of_nil in H.
  - change (foldl (entryMap ck size) keyMap (e :: es))
      with (foldl (entryMap ck size) (entryMap ck size keyMap e) es).
    rewrite IH, lookupIn_entryMap, fmap_cons.
    destruct (decide ((key, pos) = entryPlace size e)) as [He|He];
      destruct (decide ((key, pos) ∈ entryPlace size <$> es)) as [Hes|Hes];
      case_decide as H; try done.
    + apply JsSet_add_idem.
    + exfalso. apply H. rewrite He. left.
    + exfalso. apply H. rewrite He. left.
    + exfalso. apply H. by right.
    + exfalso. apply elem_of_cons in H as [?|?]; contradiction.
Qed.

Lemma candidates_foldl_entryMap keys ck st st' :
  compositeKeyMap st' =
    foldl (entryMap ck (length keys)) (compositeKeyMap st) (entries keys) →
  candidates keys st' = (λ s, JsSet.add s ck) <$> candidates keys st.
Proof.
  intros Hmap. apply list_eq; intros i. unfold candidates.
  rewrite list_lookup_fmap, !list_lookup_imap.
  destruct (keys !! i) as [key|] eqn:Hi; simpl; [|done].
  f_equal. unfold lookupSet. rewrite Hmap, lookupIn_foldl_entryMap.
  rewrite decide_True; [done|].
  apply list_elem_of_fmap. exists (i, key). split; [done|].
  apply list_elem_of_lookup. exists i. unfold entries.
  by rewrite list_lookup_imap, Hi.
Qed.

(** Once [ck] has been added to every fetched set, the pivot set starts
    with [ck], provided [ck] was the first handle of the old pivot set or
    the old pivot set was empty. *)
Lemma pivot_after_add (first : list CompositeKey) rest ck :
  head (pivot (first :: rest)) = Some ck ∨ pivot (first :: rest) = [] →
  head (pivot ((λ s, JsSet.add s ck) <$> first :: rest)) = Some ck.
Proof.
  set (f := λ s, JsSet.add s ck). intros Hold.
  destruct (minimum_first_least JsSet.size first rest)
    as (pre & post & Hfl).
  destruct (minimum_first_least JsSet.size (f first) (f <$> rest))
    as (pre' & post' & Hfl').
  change (minimum_loop JsSet.size rest first (JsSet.size first))
    with (pivot (first :: rest)) in Hfl.
  change (minimum_loop JsSet.size (f <$> rest) (f first) (JsSet.size (f first)))
    with (pivot (f <$> first :: rest)) in Hfl'.
  change (f first :: (f <$> rest)) with (f <$> first :: rest) in Hfl'.
  set (P := pivot (first :: rest)) in *.
  set (P' := pivot (f <$> first :: rest)) in *.
  destruct Hold as [Hhead|Hnil].
  - assert (ck ∈ P) as Hin.
    { destruct P as [|x P]; [done|]. injection Hhead as ->. by left. }
    assert (f P = P) as HfP by by apply JsSet_add_known.
    assert (first_least JsSet.size (f <$> first :: rest) P (f <$> pre) (f <$> post))
      as Hfl2.
    { destruct Hfl as (Heq & A & B). repeat split.
      - by rewrite Heq, fmap_app, fmap_cons, HfP.
      - apply Forall_fmap. eapply Forall_impl; [exact A|]. simpl. intros x Hx.
        pose proof (JsSet_add_size x ck). unfold f; simpl. lia.
      - apply Forall_fmap. eapply Forall_impl; [exact B|]. simpl. intros x Hx.
        pose proof (JsSet_add_size x ck). unfold f; simpl. lia. }
    destruct (first_least_unique _ _ _ _ _ _ _ _ Hfl' Hfl2) as (_ & -> & _).
    done.
  - apply first_least_elem in Hfl as [HP _].
    apply first_least_elem in Hfl' as [HP' Hleast].
    assert (f P ∈ f <$> first :: rest) as HfP by by apply list_elem_of_fmap_2.
    rewrite Forall_forall in Hleast. apply Hleast in HfP.
    rewrite Hnil in HfP. unfold f, JsSet.add, JsSet.has, JsSet.size in HfP.
    simpl in HfP.
    apply list_elem_of_fmap in HP' as (x & Hx & _).
    pose proof (JsSet_add_elem x ck) as Hck. fold (f x) in Hck.
    rewrite <- Hx in Hck.
    destruct P' as [|y [|z P']]; simpl in *.
    + by apply not_elem_of_nil in Hck.
    + apply list_elem_of_singleton in Hck. by subst.
    + lia.
Qed.

(* ===================================================================== *)
(** ** The public methods on a non-empty tuple *)
(* ===================================================================== *)

Lemma assertKeysValid_cons key keys : assertKeysValid (key :: keys) = Ok tt.
Proof. done. Qed.

Lemma candidates_cons key keys st :
  ∃ first rest, candidates (key :: keys) st = first :: rest.
Proof.
  destruct (candidates (key :: keys) st) as [|first rest] eqn:E; [|by eauto].
  apply (f_equal length) in E. unfold candidates in E.
  by rewrite length_imap in E.
Qed.

Lemma candidates_same_keyMap keys st st' :
  compositeKeyMap st' = compositeKeyMap st →
  candidates keys st' = candidates keys st.
Proof. intros H. unfold candidates, lookupSet. by rewrite H. Qed.

Lemma set_run key keys value st :
  CompositeWeakMap.set (key :: keys) value st =
  (Ok tt, afterSet (key :: keys) value st).
Proof.
  unfold CompositeWeakMap.set, CompositeWeakMap.getOrCreateCompositeKey.
  unfold bind at 1. unfold lift. rewrite assertKeysValid_cons.
  unfold bind at 1. unfold bind at 1. rewrite getCompositeKey_head.
  unfold afterSet, resolveOrMint.
  destruct (head (pivot (candidates (key :: keys) st))) as [ck|]; simpl.
  - unfold bind, ret. by rewrite setCompositeKey_run.
  - unfold bind, alloc. by rewrite setCompositeKey_run.
Qed.

Lemma get_run key keys st :
  CompositeWeakMap.get (key :: keys) st =
  (Ok (match head (pivot (candidates (key :: keys) st)) with
       | Some ck => default JsUndefined (resultMap st !! ck)
       | None => JsUndefined
       end), st).
Proof.
  unfold CompositeWeakMap.get.
  unfold bind at 1. unfold lift. rewrite assertKeysValid_cons.
  unfold bind. rewrite getCompositeKey_head.
  by destruct (head (pivot (candidates (key :: keys) st))).
Qed.

Lemma has_run key keys st :
  CompositeWeakMap.has (key :: keys) st =
  (Ok (match head (pivot (candidates (key :: keys) st)) with
       | Some ck => bool_decide (is_Some (resultMap st !! ck))
       | None => false
       end), st).
Proof.
  unfold CompositeWeakMap.has.
  unfold bind at 1. unfold lift. rewrite assertKeysValid_cons.
  unfold bind. rewrite getCompositeKey_head.
  by destruct (head (pivot (candidates (key :: keys) st))).
Qed.

Lemma delete_run key keys st :
  CompositeWeakMap.delete (key :: keys) st =
  match head (pivot (candidates (key :: keys) st)) with
  | Some ck => (Ok (bool_decide (is_Some (resultMap st !! ck))),
                with_resultMap (base.delete ck) st)
  | None => (Ok false, st)
  end.
Proof.
  unfold CompositeWeakMap.delete.
  unfold bind at 1. unfold lift. rewrite assertKeysValid_cons.
  unfold bind at 1. rewrite getCompositeKey_head.
  by destruct (head (pivot (candidates (key :: keys) st))).
Qed.

(** Resolution fails as soon as one fetched set is empty. *)
Lemma getCompositeKey_empty_candidate key keys st :
  [] ∈ candidates (key :: keys) st →
  CompositeWeakMap.getCompositeKey (key :: keys) st = Ok None.
Proof.
  intros Hin. rewrite getCompositeKey_head. f_equal.
  destruct (candidates_cons key keys st) as (first & rest & E).
  rewrite E in *. simpl.
  destruct (minimum_first_least JsSet.size first rest) as (pre & post & Hfl).
  apply first_least_elem in Hfl as [_ Hleast].
  rewrite Forall_forall in Hleast. apply Hleast in Hin.
  unfold JsSet.size in Hin at 2. simpl in Hin.
  destruct (minimum_loop _ _ _ _) as [|x l]; [done|].
  unfold JsSet.size in Hin. simpl in Hin. lia.
Qed.

(** After [set], resolution of the same tuple finds the handle [set] wrote
    the value under. *)
Lemma resolve_after_set key keys value st :
  head (pivot (candidates (key :: keys) (afterSet (key :: keys) value st))) =
  Some (resolveOrMint (key :: keys) st).1.
Proof.
  set (ck := (resolveOrMint (key :: keys) st).1).
  rewrite (candidates_foldl_entryMap _ ck (resolveOrMint (key :: keys) st).2)
    by done.
  assert (candidates (key :: keys) (resolveOrMint (key :: keys) st).2 =
          candidates (key :: keys) st) as ->.
  { apply candidates_same_keyMap. unfold resolveOrMint.
    by destruct (head _). }
  destruct (candidates_cons key keys st) as (first & rest & E).
  rewrite E. apply pivot_after_add. rewrite <- E.
  unfold ck, resolveOrMint.
  destruct (pivot (candidates (key :: keys) st)) as [|x P]; simpl; by eauto.
Qed.

(** Closed facts are settled by evaluation. *)
Ltac by_evaluation := apply (bool_decide_unpack _); vm_compute; exact I.
Ltac by_computation := vm_compute; reflexivity.

Lemma reachable_runAll evs : ∀ st,
  reachable st → enabledAll evs st → reachable (runAll evs st).
Proof.
  induction evs as [|ev evs IH]; intros st Hst Hen; simpl in *; [done|].
  destruct Hen as [H1 H2]. apply IH; [|done]. by constructor.
Qed.

(* ===================================================================== *)
(** ** Properties of the public interface *)
(* ===================================================================== *)

(** C5 (round trip).  For every non-empty tuple and every value, in every
    state of the map (reachable or not), [set(T, v)] returns and a [get(T)]
    made right after it returns [v]. *)
Theorem C5_set_then_get_returns_value (st : State) key keys value :
  ∃ st',
    CompositeWeakMap.set (key :: keys) value st = (Ok tt, st') ∧
    CompositeWeakMap.get (key :: keys) st' = (Ok value, st').
Proof.
  exists (afterSet (key :: keys) value st). split; [apply set_run|].
  rewrite get_run, resolve_after_set. f_equal. f_equal.
  unfold afterSet; simpl. by rewrite lookup_insert_eq.
Qed.

(** C8 (empty tuple).  Each of [get], [set], [has] and [delete] called with
    a tuple of length 0 throws the one error of the class and leaves every
    component of the state as it was. *)
Theorem C8_empty_tuple_throws_and_changes_nothing (st : State) value :
  CompositeWeakMap.get [] st = (Throw "At least one key is required.", st) ∧
  CompositeWeakMap.set [] value st = (Throw "At least one key is required.", st) ∧
  CompositeWeakMap.has [] st = (Throw "At least one key is required.", st) ∧
  CompositeWeakMap.delete [] st = (Throw "At least one key is required.", st).
Proof. repeat split. Qed.

(** C9 (frame).  [get] and [has] leave the whole state unchanged; [delete]
    leaves [compositeKeyMap], the registries and their pending
    registrations unchanged and removes from [resultMap] at most the entry
    of the handle the tuple resolves to. *)
Theorem C9_get_has_pure_delete_touches_only_resultMap (st : State) keys :
  exec (CompositeWeakMap.get keys) st = st ∧
  exec (CompositeWeakMap.has keys) st = st ∧
  compositeKeyMap (exec (CompositeWeakMap.delete keys) st) = compositeKeyMap st ∧
  registries (exec (CompositeWeakMap.delete keys) st) = registries st ∧
  registryHeap (exec (CompositeWeakMap.delete keys) st) = registryHeap st ∧
  collected (exec (CompositeWeakMap.delete keys) st) = collected st ∧
  next (exec (CompositeWeakMap.delete keys) st) = next st ∧
  (resultMap (exec (CompositeWeakMap.delete keys) st) = resultMap st ∨
   ∃ compositeKey,
     CompositeWeakMap.getCompositeKey keys st = Ok (Some compositeKey) ∧
     resultMap (exec (CompositeWeakMap.delete keys) st) =
       base.delete compositeKey (resultMap st)).
Proof.
  destruct keys as [|key keys].
  - repeat split. by left.
  - unfold exec. rewrite get_run, has_run, delete_run, getCompositeKey_head.
    destruct (head (pivot (candidates (key :: keys) st))) as [ck|]; simpl.
    + repeat split. right. by exists ck.
    + repeat split. by left.
Qed.

Lemma resolveOrMint_frame keys st :
  compositeKeyMap (resolveOrMint keys st).2 = compositeKeyMap st ∧
  resultMap (resolveOrMint keys st).2 = resultMap st ∧
  registries (resolveOrMint keys st).2 = registries st ∧
  registryHeap (resolveOrMint keys st).2 = registryHeap st ∧
  collected (resolveOrMint keys st).2 = collected st.
Proof. unfold resolveOrMint. by destruct (head _). Qed.

Lemma afterSet_registries keys value st :
  registries (afterSet keys value st) =
  {[next (resolveOrMint keys st).2]} ∪ registries st.
Proof.
  destruct (resolveOrMint_frame keys st) as (_ & _ & E & _).
  unfold afterSet, afterSetCompositeKey, with_resultMap.
  cbn [registries]. by rewrite E.
Qed.

Lemma afterSet_registryHeap keys value st :
  registryHeap (afterSet keys value st) =
  <[next (resolveOrMint keys st).2 :=
      {| registry_compositeKey := (resolveOrMint keys st).1;
         registry_cells :=
           loopCells keys (length keys) (S (next (resolveOrMint keys st).2))
                     (entries keys) |}]> (registryHeap st).
Proof.
  destruct (resolveOrMint_frame keys st) as (_ & _ & _ & E & _).
  unfold afterSet, afterSetCompositeKey, with_resultMap.
  cbn [registryHeap]. by rewrite E.
Qed.

Lemma entryCells_same_key keys size token index a :
  Forall (λ key, key = a) keys → entryCells keys size token index a = [].
Proof.
  intros Hall. unfold entryCells.
  replace (filter (λ other, a ≠ other) keys) with (@nil PartialKey); [done|].
  symmetry. induction Hall as [|k keys -> _ IH]; [done|].
  rewrite filter_cons_False; [done|]. by intros H.
Qed.

Lemma loopCells_same_key keys size a es : ∀ token,
  Forall (λ key, key = a) keys → Forall (λ entry, entry.2 = a) es →
  loopCells keys size token es = [].
Proof.
  induction es as [|[index key] es IH]; intros token Hkeys Hes; simpl; [done|].
  apply Forall_cons in Hes as [Hkey Hes]. simpl in Hkey. subst key.
  by rewrite entryCells_same_key, IH.
Qed.

Lemma entries_same_key keys a :
  Forall (λ key, key = a) keys → Forall (λ entry, entry.2 = a) (entries keys).
Proof.
  intros Hall. apply Forall_forall. intros [index key] Hin.
  apply list_elem_of_lookup in Hin as [i Hi]. unfold entries in Hi.
  rewrite list_lookup_imap in Hi.
  destruct (keys !! i) as [k|] eqn:E; [|done]. injection Hi as <- <-.
  rewrite Forall_forall in Hall. apply Hall.
  by eapply list_elem_of_lookup_2.
Qed.

(** C10 (repeated key).  A tuple may hold the same object more than once:
    [set([a, a], v)] returns, and then [get([a, a])] returns [v] and
    [has([a, a])] returns [true]; and when all the elements of a tuple are
    one object, the registry [set] creates is added to [registries] with no
    registration at all, and no other registry is touched. *)
Theorem C10_same_object_twice (st : State) (a : PartialKey) value :
  (∃ st',
     CompositeWeakMap.set [a; a] value st = (Ok tt, st') ∧
     CompositeWeakMap.get [a; a] st' = (Ok value, st') ∧
     CompositeWeakMap.has [a; a] st' = (Ok true, st')) ∧
  (∀ n, ∃ st' finalizationRegistry compositeKey,
     CompositeWeakMap.set (replicate (S n) a) value st = (Ok tt, st') ∧
     registries st' = {[finalizationRegistry]} ∪ registries st ∧
     registryHeap st' !! finalizationRegistry =
       Some {| registry_compositeKey := compositeKey; registry_cells := [] |} ∧
     ∀ other, other ≠ finalizationRegistry →
       registryHeap st' !! other = registryHeap st !! other).
Proof.
  split.
  - exists (afterSet [a; a] value st). split; [apply set_run|].
    rewrite get_run, has_run, resolve_after_set.
    unfold afterSet; simpl. rewrite lookup_insert_eq. simpl.
    by split.
  - intros n. change (replicate (S n) a) with (a :: replicate n a).
    set (keys := a :: replicate n a).
    exists (afterSet keys value st), (next (resolveOrMint keys st).2),
           (resolveOrMint keys st).1.
    assert (Forall (λ key, key = a) keys) as Hall.
    { apply Forall_cons; split; [done|]. apply Forall_forall.
      intros x Hx. by apply elem_of_replicate in Hx as [-> _]. }
    split; [apply set_run|].
    rewrite afterSet_registries, afterSet_registryHeap.
    split; [done|]. split.
    + rewrite lookup_insert_eq. f_equal. f_equal.
      apply (loopCells_same_key _ _ a); [done|].
      by apply entries_same_key.
    + intros other Hne. by rewrite lookup_insert_ne.
Qed.

(** C6 (has and get), as the code has it.  For every non-empty tuple whose
    resolved handle does not hold the value [undefined], [has] returns
    [true] exactly when [get] returns something other than [undefined]. *)
Theorem C6_has_iff_get_defined (st : State) key keys
    (Hdefined : ∀ compositeKey,
       CompositeWeakMap.getCompositeKey (key :: keys) st =
         Ok (Some compositeKey) →
       resultMap st !! compositeKey ≠ Some JsUndefined) :
  ∃ found value,
    CompositeWeakMap.has (key :: keys) st = (Ok found, st) ∧
    CompositeWeakMap.get (key :: keys) st = (Ok value, st) ∧
    (found = true ↔ value ≠ JsUndefined).
Proof.
  rewrite has_run, get_run. rewrite getCompositeKey_head in Hdefined.
  destruct (head (pivot (candidates (key :: keys) st))) as [ck|].
  - specialize (Hdefined ck eq_refl).
    eexists _, _. split; [done|]. split; [done|].
    destruct (resultMap st !! ck) as [v|] eqn:E.
    + split; [|intros _; apply bool_decide_eq_true; by eexists].
      intros _ Hv. simpl in Hv. by subst v.
    + split; [|done].
      intros H. apply bool_decide_eq_true in H. by destruct H.
  - eexists _, _. split; [done|]. split; [done|]. done.
Qed.

(** The theorem above applies to the binding of [first; second] in the
    scenario with two bindings. *)
Lemma C6_witness_on_two_bindings :
  ∃ found value,
    CompositeWeakMap.has [Scenario.first; Scenario.second]
      Scenario.twoBindings = (Ok found, Scenario.twoBindings) ∧
    CompositeWeakMap.get [Scenario.first; Scenario.second]
      Scenario.twoBindings = (Ok value, Scenario.twoBindings) ∧
    (found = true ↔ value ≠ JsUndefined).
Proof.
  apply (C6_has_iff_get_defined Scenario.twoBindings Scenario.first
           [Scenario.second]).
  intros compositeKey H. vm_compute in H. injection H as <-.
  vm_compute. discriminate.
Defined.

(** C6, as the specification states it, fails on a reachable state: after
    [set([first], undefined)], [has([first])] is [true] while [get([first])]
    returns [undefined], the marker of a missing entry. *)
Lemma C6_undefined_value_counterexample :
  reachable Scenario.undefinedStored ∧
  ¬ (fst (CompositeWeakMap.has [Scenario.first] Scenario.undefinedStored)
       = Ok true ↔
     fst (CompositeWeakMap.get [Scenario.first] Scenario.undefinedStored)
       ≠ Ok JsUndefined).
Proof.
  split.
  - apply reachable_runAll; [constructor|].
    split; [|exact I]. apply Forall_singleton. by_evaluation.
  - intros [H _]. apply H; by_computation.
Qed.

(* ===================================================================== *)
(** ** Resolution against the other fetched sets *)
(* ===================================================================== *)

Lemma twoBindings_reachable : reachable Scenario.twoBindings.
Proof.
  apply reachable_runAll; [constructor|].
  split; [|split; [|exact I]]; repeat constructor; by_evaluation.
Qed.

(** C2 (handle resolution), evaluated.  With the bindings of
    [third; fourth] and of [first; second] in place, the sets fetched for
    [first; fourth] are [{14}] and [{10}]; the pivot is the first of them
    and resolution answers with its handle 14, which the other fetched set
    does not contain: the handles of the pivot set are tested against what
    [remove] returned, the pivot set itself. *)
Theorem C2_resolution_ignores_other_sets :
  candidates [Scenario.first; Scenario.fourth] Scenario.twoBindings =
    [[14]; [10]] ∧
  remove same_set
    (imap (fetch Scenario.twoBindings 2) [Scenario.first; Scenario.fourth])
    (fetch Scenario.twoBindings 2 0 Scenario.first) =
    Ok [fetch Scenario.twoBindings 2 0 Scenario.first] ∧
  CompositeWeakMap.getCompositeKey [Scenario.first; Scenario.fourth]
    Scenario.twoBindings = Ok (Some 14).
Proof. split; [|split]; by_computation. Qed.

(** C1 (no match but the exact one), evaluated.  On the reachable map that
    holds a binding for [third; fourth], the tuple [first; fourth] is not
    found; after [set([first, second], 'v')] the lookup of
    [first; fourth], which differs from [first; second] in its second
    element, returns ['v']. *)
Theorem C1_lookup_of_other_tuple_succeeds :
  reachable Scenario.twoBindings ∧
  Scenario.twoBindings =
    exec (CompositeWeakMap.set [Scenario.first; Scenario.second] (JsString "v"))
      (exec (CompositeWeakMap.set [Scenario.third; Scenario.fourth]
               (JsString "w")) Scenario.empty) ∧
  fst (CompositeWeakMap.get [Scenario.first; Scenario.fourth]
         (exec (CompositeWeakMap.set [Scenario.third; Scenario.fourth]
                  (JsString "w")) Scenario.empty)) = Ok JsUndefined ∧
  fst (CompositeWeakMap.get [Scenario.first; Scenario.fourth]
         Scenario.twoBindings) = Ok (JsString "v").
Proof.
  split; [apply twoBindings_reachable|].
  split; [|split]; by_computation.
Qed.

(** C7 (delete), evaluated.  On the same map, [delete([first, fourth])]
    returns [true] although that tuple was never set, and what it removes
    is the value of [first; second]. *)
Theorem C7_delete_of_unset_tuple_returns_true :
  reachable Scenario.twoBindings ∧
  fst (CompositeWeakMap.delete [Scenario.first; Scenario.fourth]
         Scenario.twoBindings) = Ok true ∧
  fst (CompositeWeakMap.get [Scenario.first; Scenario.second]
         Scenario.twoBindings) = Ok (JsString "v") ∧
  fst (CompositeWeakMap.get [Scenario.first; Scenario.second]
         (exec (CompositeWeakMap.delete [Scenario.first; Scenario.fourth])
            Scenario.twoBindings)) = Ok JsUndefined.
Proof.
  split; [apply twoBindings_reachable|].
  split; [|split]; by_computation.
Qed.

(* ===================================================================== *)
(** ** Registrations and their cleanup *)
(* ===================================================================== *)

Lemma entryCells_elem keys size token index key cell :
  cell ∈ entryCells keys size token index key ↔
  ∃ target, target ∈ keys ∧ key ≠ target ∧
            cell = watch size token index key target.
Proof.
  unfold entryCells. rewrite list_elem_of_fmap. split.
  - intros (target & -> & Hin). apply list_elem_of_filter in Hin as [? ?].
    by exists target.
  - intros (target & Hin & Hne & ->). exists target. split; [done|].
    by apply list_elem_of_filter.
Qed.

Lemma loopCells_elem keys size es cell : ∀ token,
  cell ∈ loopCells keys size token es ↔
  ∃ n index key target,
    es !! n = Some (index, key) ∧ target ∈ keys ∧ key ≠ target ∧
    cell = watch size (token + n) index key target.
Proof.
  induction es as [|[index key] es IH]; intros token; simpl.
  - split; [by intros ?%not_elem_of_nil|]. by intros (n & ? & ? & ? & ? & _).
  - rewrite elem_of_app, entryCells_elem, IH. split.
    + intros [(target & ? & ? & ->)|(n & i & k & target & ? & ? & ? & ->)].
      * exists 0, index, key, target. by rewrite Nat.add_0_r.
      * exists (S n), i, k, target. by rewrite Nat.add_succ_r.
    + intros ([|n] & i & k & target & Hn & ? & ? & ->); simpl in Hn.
      * injection Hn as <- <-. left. exists target. by rewrite Nat.add_0_r.
      * right. exists n, i, k, target. by rewrite Nat.add_succ_r.
Qed.

Lemma entries_lookup keys n index key :
  entries keys !! n = Some (index, key) ↔ index = n ∧ keys !! n = Some key.
Proof.
  unfold entries. rewrite list_lookup_imap.
  destruct (keys !! n) as [k|]; simpl; [|by split; [|intros [_ ?]]].
  split; [by intros [= <- <-]|]. by intros [-> [= ->]].
Qed.

(** The registrations [setCompositeKey] makes, as a set: one per index
    [i] and per element of the tuple other than the key at [i], with the
    token drawn at turn [i]. *)
Lemma set_cells_elem keys token cell :
  cell ∈ loopCells keys (length keys) token (entries keys) ↔
  ∃ i key target,
    keys !! i = Some key ∧ target ∈ keys ∧ key ≠ target ∧
    cell = watch (length keys) (token + i) i key target.
Proof.
  rewrite loopCells_elem. split.
  - intros (n & index & key & target & Hn & ? & ? & ->).
    apply entries_lookup in Hn as [-> ?]. by exists n, key, target.
  - intros (i & key & target & ? & ? & ? & ->).
    exists i, i, key, target. by rewrite entries_lookup.
Qed.

(** The callback of a registration whose key is still alive and indexed at
    the carried position: the handle leaves that candidate set, the
    registrations sharing the token are dropped and the registry leaves
    [registries]. *)
Lemma finalize_live r i st reg cell entries sets :
  registryHeap st !! r = Some reg →
  registry_cells reg !! i = Some cell →
  cell_target cell ∈ collected st →
  weak_target (partialKeyRef (cell_heldValue cell)) ∉ collected st →
  compositeKeyMap st !! weak_target (partialKeyRef (cell_heldValue cell)) =
    Some entries →
  entries !! partialKeyPos (cell_heldValue cell) = Some sets →
  Host.finalize r i st =
  (Ok tt,
   {| compositeKeyMap :=
        <[weak_target (partialKeyRef (cell_heldValue cell)) :=
            <[partialKeyPos (cell_heldValue cell) :=
                JsSet.delete sets (registry_compositeKey reg)]> entries]>
          (compositeKeyMap st);
      resultMap := resultMap st;
      registries := registries st ∖ {[r]};
      registryHeap :=
        alter (with_cells
                 (filter (λ c, cell_unregisterToken c ≠
                               unregisterToken (cell_heldValue cell))))
              r (alter (with_cells (base.delete i)) r (registryHeap st));
      collected := collected st;
      next := next st |}).
Proof.
  intros Hreg Hcell Htarget Hlive Hentries Hsets.
  unfold Host.finalize. rewrite Hreg, Hcell, decide_True by done.
  unfold CompositeWeakMap.cleanupCallback, bind, read; simpl.
  rewrite decide_False by done.
  change (compositeKeyMap (with_registryHeap _ st)) with (compositeKeyMap st).
  rewrite Hentries, Hsets. done.
Qed.

(** The callback of a registration whose key is gone, or no longer
    indexed at the carried position, only consumes the registration. *)
Lemma finalize_dead r i st reg cell :
  registryHeap st !! r = Some reg →
  registry_cells reg !! i = Some cell →
  cell_target cell ∈ collected st →
  weak_target (partialKeyRef (cell_heldValue cell)) ∈ collected st ∨
  lookupSetOpt st (cell_heldValue cell) = None →
  Host.finalize r i st =
  (Ok tt, with_registryHeap (alter (with_cells (base.delete i)) r) st).
Proof.
  intros Hreg Hcell Htarget Hdead.
  unfold Host.finalize. rewrite Hreg, Hcell, decide_True by done.
  unfold CompositeWeakMap.cleanupCallback, bind, read; simpl.
  case_decide; [done|]. destruct Hdead as [?|Hnone]; [done|].
  unfold lookupSetOpt in Hnone.
  change (compositeKeyMap (with_registryHeap _ st)) with (compositeKeyMap st).
  destruct (compositeKeyMap st !! _) as [entries|]; simpl in *; [|done].
  by rewrite Hnone.
Qed.

(** A cleanup callback that does not apply leaves the state alone. *)
Lemma finalize_idle r i st :
  (∀ reg cell, registryHeap st !! r = Some reg →
               registry_cells reg !! i = Some cell →
               cell_target cell ∉ collected st) →
  Host.finalize r i st = (Ok tt, st).
Proof.
  intros H. unfold Host.finalize.
  destruct (registryHeap st !! r) as [reg|]; [|done].
  destruct (registry_cells reg !! i) as [cell|] eqn:E; [|done].
  rewrite decide_False; [done|]. by eapply H.
Qed.

Lemma triple_reachable : reachable Scenario.triple.
Proof.
  apply reachable_runAll; [constructor|].
  split; [|exact I]. repeat constructor; by_evaluation.
Qed.

Lemma tripleFired_reachable : reachable Scenario.tripleFired.
Proof.
  apply reachable_runAll; [apply triple_reachable|].
  split; [by_evaluation|]. split; [|exact I].
  exists (watch 3 12 0 Scenario.first Scenario.second).
  split; [by_computation|by_evaluation].
Qed.

(** C3 (watches and tokens), as the code has it.  [set] on a non-empty
    tuple creates one registry; its registrations are exactly, for every
    index [i] with key [k] and every element [k'] of the tuple other than
    [k], a watch on [k'] carrying a weak reference to [k], the position of
    index [i] and the token of index [i], where distinct indices have
    distinct tokens.  And when a watch fires whose key is alive and indexed
    at the carried position, the handle leaves that candidate set and the
    registry keeps exactly its other registrations made with another
    token. *)
Theorem C3_watches_share_a_token_per_position :
  (∀ (st : State) key keys value,
     ∃ st' finalizationRegistry compositeKey cells (token : nat → ObjRef),
       CompositeWeakMap.set (key :: keys) value st = (Ok tt, st') ∧
       finalizationRegistry ∈ registries st' ∧
       registryHeap st' !! finalizationRegistry =
         Some {| registry_compositeKey := compositeKey;
                 registry_cells := cells |} ∧
       resultMap st' !! compositeKey = Some value ∧
       (∀ i j, token i = token j → i = j) ∧
       ∀ cell, cell ∈ cells ↔
         ∃ i k k',
           (key :: keys) !! i = Some k ∧ k' ∈ key :: keys ∧ k ≠ k' ∧
           cell =
             {| cell_target := k';
                cell_heldValue :=
                  {| partialKeyRef := {| weak_target := k |};
                     partialKeyPos :=
                       createPartialKeyPosition i (length (key :: keys));
                     unregisterToken := token i |};
                cell_unregisterToken := token i |}) ∧
  (∀ (st : State) finalizationRegistry i reg cell entries sets,
     registryHeap st !! finalizationRegistry = Some reg →
     registry_cells reg !! i = Some cell →
     cell_target cell ∈ collected st →
     weak_target (partialKeyRef (cell_heldValue cell)) ∉ collected st →
     compositeKeyMap st !! weak_target (partialKeyRef (cell_heldValue cell)) =
       Some entries →
     entries !! partialKeyPos (cell_heldValue cell) = Some sets →
     cellsOf (exec (Host.finalize finalizationRegistry i) st)
             finalizationRegistry =
       filter (λ c, cell_unregisterToken c ≠
                    unregisterToken (cell_heldValue cell))
              (base.delete i (registry_cells reg)) ∧
     lookupSet (exec (Host.finalize finalizationRegistry i) st)
               (weak_target (partialKeyRef (cell_heldValue cell)))
               (partialKeyPos (cell_heldValue cell)) =
       JsSet.delete sets (registry_compositeKey reg)).
Proof.
  split.
  - intros st key keys value.
    set (T := key :: keys). set (r := next (resolveOrMint T st).2).
    exists (afterSet T value st), r, (resolveOrMint T st).1,
           (loopCells T (length T) (S r) (entries T)), (λ i, S r + i).
    split; [apply set_run|].
    rewrite afterSet_registries, afterSet_registryHeap. fold r.
    split; [set_solver|]. split; [by rewrite lookup_insert_eq|].
    split; [unfold afterSet; simpl; by rewrite lookup_insert_eq|].
    split; [intros i j; lia|].
    intros cell. apply set_cells_elem.
  - intros st r i reg cell entries sets Hreg Hcell Htarget Hlive Hentries Hsets.
    unfold exec.
    rewrite (finalize_live _ _ _ _ _ _ _ Hreg Hcell Htarget Hlive Hentries Hsets).
    split.
    + unfold cellsOf; simpl. rewrite !lookup_alter_eq, Hreg. done.
    + unfold lookupSet, lookupIn; simpl. rewrite lookup_insert_eq; simpl.
      by rewrite lookup_insert_eq.
Qed.

(** The firing part of the theorem above, at the map holding the binding
    of [first; second; third] once [second] has been collected: the first
    registration fires, the one registration sharing its token goes with
    it, and four registrations of the binding stay pending. *)
Lemma C3_witness_on_triple :
  cellsOf Scenario.tripleFired Scenario.tripleRegistry =
    [watch 3 13 1 Scenario.second Scenario.first;
     watch 3 13 1 Scenario.second Scenario.third;
     watch 3 14 2 Scenario.third Scenario.first;
     watch 3 14 2 Scenario.third Scenario.second] ∧
  lookupSet Scenario.tripleFired Scenario.first "1/3" = [].
Proof.
  apply (proj2 C3_watches_share_a_token_per_position
           (run (Collect Scenario.second) Scenario.triple)
           Scenario.tripleRegistry 0
           {| registry_compositeKey := Scenario.tripleHandle;
              registry_cells :=
                loopCells [1; 2; 3] 3 12 (entries [1; 2; 3]) |}
           (watch 3 12 0 Scenario.first Scenario.second)
           {["1/3" := [Scenario.tripleHandle]]}
           [Scenario.tripleHandle]).
  - by_computation.
  - by_computation.
  - by_evaluation.
  - by_evaluation.
  - by_computation.
  - by_computation.
Defined.

(** C3, as the specification states it, fails on the binding of
    [first; second; third]: its watches do not all share one token, and
    after the first of them has fired, watches of that binding are still
    registered. *)
Lemma C3_one_token_per_binding_counterexample :
  reachable Scenario.tripleFired ∧
  ¬ (∀ c1 c2,
       c1 ∈ cellsOf Scenario.triple Scenario.tripleRegistry →
       c2 ∈ cellsOf Scenario.triple Scenario.tripleRegistry →
       cell_unregisterToken c1 = cell_unregisterToken c2) ∧
  Scenario.tripleFired =
    exec (Host.finalize Scenario.tripleRegistry 0)
      (exec (Host.collect Scenario.second) Scenario.triple) ∧
  ¬ (cellsOf Scenario.tripleFired Scenario.tripleRegistry = []).
Proof.
  split; [apply tripleFired_reachable|]. split; [|split; [by_computation|]].
  - intros H.
    specialize (H (watch 3 12 0 Scenario.first Scenario.second)
                  (watch 3 13 1 Scenario.second Scenario.first)).
    assert (12 = 13) as Habs; [|discriminate Habs].
    apply H; by_evaluation.
  - intros H. vm_compute in H. discriminate H.
Qed.

(* ===================================================================== *)
(** ** The strong set [registries] *)
(* ===================================================================== *)

Lemma call_keeps_registries ev st :
  match ev with Collect _ | Finalize _ _ => False | _ => True end →
  registries st ⊆ registries (run ev st).
Proof.
  destruct ev as [keys|keys value|keys|keys|key|r i]; simpl; try done;
    intros _; destruct keys as [|key keys]; try done; unfold exec.
  - by rewrite get_run.
  - rewrite set_run. cbn [snd]. rewrite afterSet_registries. set_solver.
  - by rewrite has_run.
  - rewrite delete_run. by destruct (head _).
Qed.

(** How a cleanup callback can end, as far as [registries] goes. *)
Lemma finalize_registries r i st :
  registries (exec (Host.finalize r i) st) = registries st ∨
  ∃ reg cell entries sets,
    registryHeap st !! r = Some reg ∧
    registry_cells reg !! i = Some cell ∧
    cell_target cell ∈ collected st ∧
    (weak_target (partialKeyRef (cell_heldValue cell)) ∉ collected st) ∧
    compositeKeyMap st !! weak_target (partialKeyRef (cell_heldValue cell)) =
      Some entries ∧
    entries !! partialKeyPos (cell_heldValue cell) = Some sets.
Proof.
  destruct (registryHeap st !! r) as [reg|] eqn:Hreg;
    [|left; unfold exec; rewrite finalize_idle; [done|congruence]].
  destruct (registry_cells reg !! i) as [cell|] eqn:Hcell;
    [|left; unfold exec; rewrite finalize_idle; [done|congruence]].
  destruct (decide (cell_target cell ∈ collected st)) as [Htarget|Htarget];
    [|left; unfold exec; rewrite finalize_idle; [done|congruence]].
  destruct (decide (weak_target (partialKeyRef (cell_heldValue cell))
                      ∈ collected st)) as [Hdead|Hlive].
  { left. unfold exec. erewrite finalize_dead; eauto. }
  destruct (compositeKeyMap st !! weak_target (partialKeyRef (cell_heldValue cell)))
    as [entries|] eqn:Hentries.
  2:{ left. unfold exec. erewrite finalize_dead; eauto.
      right. unfold lookupSetOpt. by rewrite Hentries. }
  destruct (entries !! partialKeyPos (cell_heldValue cell)) as [sets|] eqn:Hsets.
  2:{ left. unfold exec. erewrite finalize_dead; eauto.
      right. unfold lookupSetOpt. by rewrite Hentries. }
  right. by exists reg, cell, entries, sets.
Qed.

(** C4 (the registries held by the map), as the code has it.  [set] on a
    non-empty tuple adds the registry it creates to [registries].  A
    registry leaves [registries] only through the cleanup callback of one
    of its own registrations, run while the key of that registration is
    alive and indexed at the carried position; no call of a public method,
    no collection and no other callback removes it.  And such a callback
    always removes it, whatever else is still registered. *)
Theorem C4_registry_released_by_its_first_cleanup :
  (∀ (st : State) key keys value,
     ∃ finalizationRegistry,
       registries (exec (CompositeWeakMap.set (key :: keys) value) st) =
         {[finalizationRegistry]} ∪ registries st ∧
       is_Some (registryHeap (exec (CompositeWeakMap.set (key :: keys) value) st)
                  !! finalizationRegistry)) ∧
  (∀ ev (st : State) finalizationRegistry,
     finalizationRegistry ∈ registries st →
     finalizationRegistry ∉ registries (run ev st) →
     ∃ i reg cell entries sets,
       ev = Finalize finalizationRegistry i ∧
       registryHeap st !! finalizationRegistry = Some reg ∧
       registry_cells reg !! i = Some cell ∧
       cell_target cell ∈ collected st ∧
       (weak_target (partialKeyRef (cell_heldValue cell)) ∉ collected st) ∧
       compositeKeyMap st !! weak_target (partialKeyRef (cell_heldValue cell)) =
         Some entries ∧
       entries !! partialKeyPos (cell_heldValue cell) = Some sets) ∧
  (∀ (st : State) finalizationRegistry i reg cell entries sets,
     registryHeap st !! finalizationRegistry = Some reg →
     registry_cells reg !! i = Some cell →
     cell_target cell ∈ collected st →
     weak_target (partialKeyRef (cell_heldValue cell)) ∉ collected st →
     compositeKeyMap st !! weak_target (partialKeyRef (cell_heldValue cell)) =
       Some entries →
     entries !! partialKeyPos (cell_heldValue cell) = Some sets →
     finalizationRegistry ∉
       registries (run (Finalize finalizationRegistry i) st)).
Proof.
  split; [|split].
  - intros st key keys value. unfold exec. rewrite set_run. cbn [snd].
    exists (next (resolveOrMint (key :: keys) st).2).
    rewrite afterSet_registries, afterSet_registryHeap.
    split; [done|]. rewrite lookup_insert_eq. by eexists.
  - intros ev st r Hin Hout.
    destruct ev as [keys|keys value|keys|keys|key|r' i].
    + pose proof (call_keeps_registries (CallGet keys) st I). set_solver.
    + pose proof (call_keeps_registries (CallSet keys value) st I). set_solver.
    + pose proof (call_keeps_registries (CallHas keys) st I). set_solver.
    + pose proof (call_keeps_registries (CallDelete keys) st I). set_solver.
    + exfalso. apply Hout. exact Hin.
    + simpl in Hout.
      destruct (finalize_registries r' i st)
        as [Hsame|(reg & cell & entries & sets & Hreg & Hcell & Ht & Hl & He & Hs)].
      { exfalso. apply Hout. by rewrite Hsame. }
      assert (r' = r) as ->.
      { destruct (decide (r' = r)) as [|Hne]; [done|]. exfalso. apply Hout.
        unfold exec. rewrite (finalize_live _ _ _ _ _ _ _ Hreg Hcell Ht Hl He Hs).
        simpl. apply elem_of_difference. split; [done|].
        intros Heq%elem_of_singleton. by apply Hne. }
      by exists i, reg, cell, entries, sets.
  - intros st r i reg cell entries sets Hreg Hcell Ht Hl He Hs. simpl.
    unfold exec. rewrite (finalize_live _ _ _ _ _ _ _ Hreg Hcell Ht Hl He Hs).
    simpl. apply not_elem_of_difference. right. by apply elem_of_singleton.
Qed.

(** The last part of the theorem above, at the map holding the binding of
    [first; second; third] once [second] has been collected. *)
Lemma C4_witness_on_triple :
  Scenario.tripleRegistry ∉ registries Scenario.tripleFired.
Proof.
  apply (proj2 (proj2 C4_registry_released_by_its_first_cleanup)
           (run (Collect Scenario.second) Scenario.triple)
           Scenario.tripleRegistry 0
           {| registry_compositeKey := Scenario.tripleHandle;
              registry_cells :=
                loopCells [1; 2; 3] 3 12 (entries [1; 2; 3]) |}
           (watch 3 12 0 Scenario.first Scenario.second)
           {["1/3" := [Scenario.tripleHandle]]}
           [Scenario.tripleHandle]).
  - by_computation.
  - by_computation.
  - by_evaluation.
  - by_evaluation.
  - by_computation.
  - by_computation.
Defined.

(** C4, as the specification states it, fails on a reachable state: after
    the first cleanup of the binding of [first; second; third], its
    registry has left [registries] while four of its registrations are
    pending and its handle is still a candidate for [third]. *)
Lemma C4_released_before_cleaned_counterexample :
  reachable Scenario.tripleFired ∧
  registryHeap Scenario.tripleFired !! Scenario.tripleRegistry =
    Some {| registry_compositeKey := Scenario.tripleHandle;
            registry_cells :=
              cellsOf Scenario.tripleFired Scenario.tripleRegistry |} ∧
  ¬ (cellsOf Scenario.tripleFired Scenario.tripleRegistry ≠ [] →
     Scenario.tripleRegistry ∈ registries Scenario.tripleFired) ∧
  ¬ (Scenario.tripleRegistry ∉ registries Scenario.tripleFired →
     Cleaned Scenario.tripleFired Scenario.tripleRegistry
       Scenario.tripleHandle).
Proof.
  assert (Scenario.tripleRegistry ∉ registries Scenario.tripleFired) as Hout
    by by_evaluation.
  split; [apply tripleFired_reachable|]. split; [by_computation|]. split.
  - intros H. apply Hout, H. intros Hnil. vm_compute in Hnil. discriminate Hnil.
  - intros H. destruct (H Hout) as [Hcells _].
    vm_compute in Hcells. discriminate Hcells.
Qed.

(* ===================================================================== *)
(** ** Further properties of the helpers *)
(* ===================================================================== *)

(** X1.  The descriptor [`${index + 1}/${size}`] determines both the index
    and the size: two descriptors are equal exactly when they were made
    from the same index and the same size. *)
Theorem position_descriptor_exact index size index' size' :
  createPartialKeyPosition index size = createPartialKeyPosition index' size'
  ↔ index = index' ∧ size = size'.
Proof.
  split; [apply createPartialKeyPosition_inj|]. by intros [-> ->].
Qed.

(** X2.  [minimum] throws on an empty array; on any other array it returns
    an element whose count is least, and the first such element: every
    element before it has a strictly greater count. *)
Theorem minimum_returns_first_least {V} (selector : V → nat) :
  minimum [] selector = Throw "Cannot get the minimum of an empty array." ∧
  ∀ first rest,
    ∃ r pre post,
      minimum (first :: rest) selector = Ok r ∧
      first :: rest = pre ++ r :: post ∧
      Forall (λ x, selector r < selector x) pre ∧
      Forall (λ x, selector r ≤ selector x) post.
Proof.
  split; [done|]. intros first rest.
  destruct (minimum_first_least selector first rest) as (pre & post & Hfl).
  by exists (minimum_loop selector rest first (selector first)), pre, post.
Qed.

Lemma findIndex_find {V} (p : V → bool) (array : list V) :
  match findIndex p array with
  | Some index => List.find p array = array !! index
  | None => List.find p array = None
  end.
Proof.
  induction array as [|v array IH]; simpl; [done|].
  destruct (p v); [done|]. by destruct (findIndex p array).
Qed.

(** X3.  [remove] throws when no element of the array is identical to the
    value; otherwise it returns the array that holds the first identical
    element and nothing else, not the elements that are left. *)
Theorem remove_returns_the_removed_element {V} (same : V → V → bool)
    (array : list V) (value : V) :
  remove same array value =
  match List.find (λ v, same v value) array with
  | Some x => Ok [x]
  | None => Throw "Value to extract not in array."
  end.
Proof.
  unfold remove.
  pose proof (findIndex_find (λ v, same v value) array) as H.
  destruct (findIndex (λ v, same v value) array) as [index|] eqn:E.
  - rewrite H. destruct (findIndex_Some _ _ _ E) as (x & Hx & _).
    rewrite Hx. by rewrite (splice_one _ _ _ Hx).
  - by rewrite H.
Qed.

(* ===================================================================== *)
(** ** Further properties of resolution *)
(* ===================================================================== *)

(** X4.  [getCompositeKey] on an empty tuple throws the error of
    [minimum].  On a non-empty tuple it never throws: among the candidate
    sets fetched for the keys it takes the first one of least size and
    returns its first handle in insertion order, or nothing if that set is
    empty, whatever the other fetched sets hold. *)
Theorem getCompositeKey_first_handle_of_smallest_set (st : State) :
  CompositeWeakMap.getCompositeKey [] st =
    Throw "Cannot get the minimum of an empty array." ∧
  ∀ key keys,
    ∃ pre smallest post,
      candidates (key :: keys) st = pre ++ smallest :: post ∧
      Forall (λ s, length smallest < length s) pre ∧
      Forall (λ s, length smallest ≤ length s) post ∧
      CompositeWeakMap.getCompositeKey (key :: keys) st = Ok (head smallest).
Proof.
  split; [done|]. intros key keys. rewrite getCompositeKey_head.
  destruct (candidates_cons key keys st) as (first & rest & E). rewrite E.
  destruct (minimum_first_least JsSet.size first rest)
    as (pre & post & Heq & Hpre & Hpost).
  by exists pre, (pivot (first :: rest)), post.
Qed.

Lemma pivot_empty_of_empty_candidate st key keys i k :
  (key :: keys) !! i = Some k →
  lookupSet st k (createPartialKeyPosition i (length (key :: keys))) = [] →
  head (pivot (candidates (key :: keys) st)) = None.
Proof.
  intros Hkey Hempty.
  pose proof (getCompositeKey_empty_candidate key keys st) as H.
  rewrite getCompositeKey_head in H.
  assert ([] ∈ candidates (key :: keys) st) as Hin.
  { apply list_elem_of_lookup. exists i. unfold candidates.
    rewrite list_lookup_imap, Hkey. exact (f_equal Some Hempty). }
  specialize (H Hin). by injection H.
Qed.

(** X5.  When the set fetched for one key of a non-empty tuple is empty
    (the key is unknown to the map, or was never used at that index in a
    tuple of that length), the tuple is not found: [get] returns
    [undefined], [has] and [delete] return [false], and nothing changes. *)
Theorem lookup_fails_on_empty_candidate_set (st : State) key keys i k
    (Hkey : (key :: keys) !! i = Some k)
    (Hempty : lookupSet st k
                (createPartialKeyPosition i (length (key :: keys))) = []) :
  CompositeWeakMap.get (key :: keys) st = (Ok JsUndefined, st) ∧
  CompositeWeakMap.has (key :: keys) st = (Ok false, st) ∧
  CompositeWeakMap.delete (key :: keys) st = (Ok false, st).
Proof.
  rewrite get_run, has_run, delete_run.
  by rewrite (pivot_empty_of_empty_candidate st key keys i k Hkey Hempty).
Qed.

(** The theorem above, for the tuple [first; second] on a new map. *)
Lemma lookup_fails_on_empty_candidate_set_witness :
  CompositeWeakMap.get [Scenario.first; Scenario.second] Scenario.empty =
    (Ok JsUndefined, Scenario.empty) ∧
  CompositeWeakMap.has [Scenario.first; Scenario.second] Scenario.empty =
    (Ok false, Scenario.empty) ∧
  CompositeWeakMap.delete [Scenario.first; Scenario.second] Scenario.empty =
    (Ok false, Scenario.empty).
Proof.
  apply (lookup_fails_on_empty_candidate_set Scenario.empty Scenario.first
           [Scenario.second] 0 Scenario.first); by_computation.
Defined.

Lemma lookupSet_new fresh k pos :
  lookupSet (newCompositeWeakMap fresh) k pos = [].
Proof. unfold lookupSet, lookupIn; simpl. by rewrite lookup_empty. Qed.

(** X6.  A new map finds nothing: for every non-empty tuple [get] returns
    [undefined], [has] and [delete] return [false], and the map stays as
    new. *)
Theorem new_map_finds_nothing fresh key keys :
  CompositeWeakMap.get (key :: keys) (newCompositeWeakMap fresh) =
    (Ok JsUndefined, newCompositeWeakMap fresh) ∧
  CompositeWeakMap.has (key :: keys) (newCompositeWeakMap fresh) =
    (Ok false, newCompositeWeakMap fresh) ∧
  CompositeWeakMap.delete (key :: keys) (newCompositeWeakMap fresh) =
    (Ok false, newCompositeWeakMap fresh).
Proof.
  rewrite get_run, has_run, delete_run.
  by rewrite (pivot_empty_of_empty_candidate _ key keys 0 key eq_refl
                (lookupSet_new _ _ _)).
Qed.

(* ===================================================================== *)
(** ** What [set] writes into the index *)
(* ===================================================================== *)

Lemma elem_of_places keys k p :
  (k, p) ∈ places keys ↔
  ∃ i, keys !! i = Some k ∧ p = createPartialKeyPosition i (length keys).
Proof.
  unfold places. rewrite list_elem_of_fmap. split.
  - intros ([index key] & Heq & Hin). unfold entryPlace in Heq; simpl in Heq.
    injection Heq as -> ->.
    apply list_elem_of_lookup in Hin as [n Hn].
    apply entries_lookup in Hn as [-> Hn]. by exists n.
  - intros (i & Hi & ->). exists (i, k). split; [done|].
    apply list_elem_of_lookup. exists i. by apply entries_lookup.
Qed.

(** The candidate sets after [set]: the handle is added at the places of
    the tuple, and no other place changes. *)
Lemma lookupSet_afterSet keys value st k p :
  lookupSet (afterSet keys value st) k p =
  if decide ((k, p) ∈ places keys)
  then JsSet.add (lookupSet st k p) (resolveOrMint keys st).1
  else lookupSet st k p.
Proof.
  destruct (resolveOrMint_frame keys st) as (E & _).
  unfold lookupSet, afterSet, afterSetCompositeKey, with_resultMap.
  cbn [compositeKeyMap]. rewrite lookupIn_foldl_entryMap, E. done.
Qed.

Lemma resultMap_afterSet keys value st :
  resultMap (afterSet keys value st) =
  <[(resolveOrMint keys st).1 := value]> (resultMap st).
Proof.
  destruct (resolveOrMint_frame keys st) as (_ & E & _).
  unfold afterSet, afterSetCompositeKey, with_resultMap.
  cbn [resultMap]. by rewrite E.
Qed.

(** X10.  [set(T, v)] on a non-empty tuple stores [v] under one handle and
    makes that handle a candidate for every key of [T] at the descriptor
    of its index.  It removes no candidate anywhere: a candidate set either
    stays as it was or, at a place of [T] that lacked the handle, gets the
    handle appended. *)
Theorem set_indexes_the_handle_at_every_position (st : State) key keys value :
  ∃ st' compositeKey,
    CompositeWeakMap.set (key :: keys) value st = (Ok tt, st') ∧
    resultMap st' !! compositeKey = Some value ∧
    (∀ i k, (key :: keys) !! i = Some k →
       compositeKey ∈
         lookupSet st' k (createPartialKeyPosition i (length (key :: keys)))) ∧
    (∀ k p,
       lookupSet st' k p = lookupSet st k p ∨
       ((compositeKey ∉ lookupSet st k p) ∧
        (∃ i, (key :: keys) !! i = Some k ∧
              p = createPartialKeyPosition i (length (key :: keys))) ∧
        lookupSet st' k p = lookupSet st k p ++ [compositeKey])).
Proof.
  set (T := key :: keys).
  exists (afterSet T value st), (resolveOrMint T st).1.
  split; [apply set_run|]. split.
  { rewrite resultMap_afterSet. by rewrite lookup_insert_eq. }
  split.
  - intros i k Hi. rewrite lookupSet_afterSet.
    rewrite decide_True by (apply elem_of_places; eauto).
    apply JsSet_add_elem.
  - intros k p. rewrite lookupSet_afterSet.
    case_decide as Hplace; [|by left].
    unfold JsSet.add, JsSet.has. case_bool_decide as Hin; [by left|].
    right. split; [done|]. split; [|done]. by apply elem_of_places.
Qed.

(** X17.  [set(T1, v)] does not change how a tuple [T2] resolves when no
    key of [T2] sits at the same index in [T1] with both tuples of the
    same length; in particular it never changes the resolution of a tuple
    of another length. *)
Theorem set_keeps_resolution_of_unrelated_tuples (st : State) key keys value T2
    (Hunrelated : ∀ i k, T2 !! i = Some k →
       length T2 ≠ length (key :: keys) ∨ (key :: keys) !! i ≠ Some k) :
  ∃ st',
    CompositeWeakMap.set (key :: keys) value st = (Ok tt, st') ∧
    CompositeWeakMap.getCompositeKey T2 st' =
      CompositeWeakMap.getCompositeKey T2 st.
Proof.
  set (T := key :: keys) in *.
  exists (afterSet T value st). split; [apply set_run|].
  destruct T2 as [|k2 ks2]; [done|].
  rewrite !getCompositeKey_head. f_equal. f_equal. f_equal.
  apply list_eq; intros i. unfold candidates. rewrite !list_lookup_imap.
  destruct ((k2 :: ks2) !! i) as [k|] eqn:Hi; [|done].
  cbn [fmap option_fmap option_map]. f_equal.
  rewrite lookupSet_afterSet. rewrite decide_False; [done|].
  intros (j & Hj & Hpos)%elem_of_places.
  apply createPartialKeyPosition_inj in Hpos as [-> Hlen].
  destruct (Hunrelated j k Hi) as [?|?]; done.
Qed.

(** The theorem above, for [first; second] set on the map that holds
    [first; second; third]. *)
Lemma set_keeps_resolution_of_unrelated_tuples_witness :
  ∃ st',
    CompositeWeakMap.set [Scenario.first; Scenario.second] (JsString "y")
      Scenario.triple = (Ok tt, st') ∧
    CompositeWeakMap.getCompositeKey
      [Scenario.first; Scenario.second; Scenario.third] st' =
    CompositeWeakMap.getCompositeKey
      [Scenario.first; Scenario.second; Scenario.third] Scenario.triple.
Proof.
  apply (set_keeps_resolution_of_unrelated_tuples Scenario.triple
           Scenario.first [Scenario.second] (JsString "y")
           [Scenario.first; Scenario.second; Scenario.third]).
  intros i k _. left. simpl. lia.
Defined.

(* ===================================================================== *)
(** ** Setting a tuple again *)
(* ===================================================================== *)

Lemma entryMap_indexed_self ck size keyMap entry :
  indexedAt (entryMap ck size keyMap entry) ck (entryPlace size entry).
Proof.
  destruct entry as [index key]. unfold indexedAt, entryMap, entryPlace; simpl.
  eexists _, _. rewrite lookup_insert_eq. split; [done|].
  rewrite lookup_insert_eq. split; [done|]. apply JsSet_add_elem.
Qed.

Lemma entryMap_indexed_mono ck size keyMap entry place :
  indexedAt keyMap ck place →
  indexedAt (entryMap ck size keyMap entry) ck place.
Proof.
  destruct entry as [index key], place as [k p].
  intros (posMap & sets & Hk & Hp & Hin). simpl in *.
  unfold indexedAt, entryMap; simpl.
  destruct (decide (k = key)) as [->|Hne].
  - rewrite Hk; simpl.
    destruct (decide (p = createPartialKeyPosition index size)) as [->|Hp'].
    + eexists _, _. rewrite lookup_insert_eq. split; [done|].
      rewrite lookup_insert_eq, Hp; simpl. split; [done|].
      by rewrite JsSet_add_known.
    + eexists _, sets. rewrite lookup_insert_eq. split; [done|].
      by rewrite lookup_insert_ne.
  - exists posMap, sets. by rewrite lookup_insert_ne.
Qed.

Lemma entryMap_id ck size keyMap entry :
  indexedAt keyMap ck (entryPlace size entry) →
  entryMap ck size keyMap entry = keyMap.
Proof.
  destruct entry as [index key].
  intros (posMap & sets & Hk & Hp & Hin). simpl in *.
  unfold entryMap; simpl. rewrite Hk; simpl. rewrite Hp; simpl.
  rewrite JsSet_add_known by done.
  rewrite (insert_id posMap) by done. by apply insert_id.
Qed.

Lemma foldl_entryMap_indexed ck size es : ∀ keyMap,
  (∀ place, indexedAt keyMap ck place →
            indexedAt (foldl (entryMap ck size) keyMap es) ck place) ∧
  (∀ entry, entry ∈ es →
            indexedAt (foldl (entryMap ck size) keyMap es) ck
                      (entryPlace size entry)).
Proof.
  induction es as [|e es IH]; intros keyMap.
  - split; [done|]. by intros entry ?%not_elem_of_nil.
  - destruct (IH (entryMap ck size keyMap e)) as [Hmono Hall].
    change (foldl (entryMap ck size) keyMap (e :: es))
      with (foldl (entryMap ck size) (entryMap ck size keyMap e) es).
    split.
    + intros place H. by apply Hmono, entryMap_indexed_mono.
    + intros entry [->|Hin]%elem_of_cons; [|by apply Hall].
      apply Hmono, entryMap_indexed_self.
Qed.

Lemma foldl_entryMap_id ck size es : ∀ keyMap,
  (∀ entry, entry ∈ es → indexedAt keyMap ck (entryPlace size entry)) →
  foldl (entryMap ck size) keyMap es = keyMap.
Proof.
  induction es as [|e es IH]; intros keyMap Hall; [done|].
  change (foldl (entryMap ck size) keyMap (e :: es))
    with (foldl (entryMap ck size) (entryMap ck size keyMap e) es).
  rewrite entryMap_id by (apply Hall; left).
  apply IH. intros entry Hin. apply Hall. by right.
Qed.

Lemma resolveOrMint_afterSet key keys value st :
  resolveOrMint (key :: keys) (afterSet (key :: keys) value st) =
  ((resolveOrMint (key :: keys) st).1, afterSet (key :: keys) value st).
Proof.
  unfold resolveOrMint at 1. by rewrite resolve_after_set.
Qed.

Lemma compositeKeyMap_afterSet keys value st :
  compositeKeyMap (afterSet keys value st) =
  foldl (entryMap (resolveOrMint keys st).1 (length keys))
        (compositeKeyMap st) (entries keys).
Proof.
  destruct (resolveOrMint_frame keys st) as (E & _).
  unfold afterSet, afterSetCompositeKey, with_resultMap.
  cbn [compositeKeyMap]. by rewrite E.
Qed.

(** X7.  Setting the same non-empty tuple twice keeps one binding: the
    second [set] resolves the handle of the first, leaves
    [compositeKeyMap] exactly as the first left it, overwrites the value
    stored under that handle, and [get] then returns the second value. *)
Theorem set_twice_overwrites_under_the_same_handle (st : State) key keys
    value1 value2 :
  ∃ st1 st2 compositeKey,
    CompositeWeakMap.set (key :: keys) value1 st = (Ok tt, st1) ∧
    CompositeWeakMap.set (key :: keys) value2 st1 = (Ok tt, st2) ∧
    resultMap st1 !! compositeKey = Some value1 ∧
    resultMap st2 = <[compositeKey := value2]> (resultMap st1) ∧
    compositeKeyMap st2 = compositeKeyMap st1 ∧
    CompositeWeakMap.get (key :: keys) st2 = (Ok value2, st2).
Proof.
  set (T := key :: keys).
  exists (afterSet T value1 st), (afterSet T value2 (afterSet T value1 st)),
         (resolveOrMint T st).1.
  split; [apply set_run|]. split; [apply set_run|]. split.
  { by rewrite resultMap_afterSet, lookup_insert_eq. }
  split.
  { rewrite (resultMap_afterSet T value2). unfold T.
    by rewrite resolveOrMint_afterSet. }
  split.
  { rewrite (compositeKeyMap_afterSet T value2). unfold T.
    rewrite resolveOrMint_afterSet. cbn [fst].
    apply foldl_entryMap_id. intros entry Hin.
    rewrite compositeKeyMap_afterSet.
    by apply foldl_entryMap_indexed. }
  unfold T. rewrite get_run, resolve_after_set, resolveOrMint_afterSet.
  cbn [fst]. f_equal. f_equal.
  rewrite resultMap_afterSet, resolveOrMint_afterSet. cbn [fst].
  by rewrite lookup_insert_eq.
Qed.

(** X9.  Right after [set(T, v)] on a non-empty tuple, [has(T)] returns
    [true], whatever the value, [undefined] included. *)
Theorem set_then_has_returns_true (st : State) key keys value :
  ∃ st',
    CompositeWeakMap.set (key :: keys) value st = (Ok tt, st') ∧
    CompositeWeakMap.has (key :: keys) st' = (Ok true, st').
Proof.
  exists (afterSet (key :: keys) value st). split; [apply set_run|].
  rewrite has_run, resolve_after_set. f_equal. f_equal.
  apply bool_decide_eq_true. rewrite resultMap_afterSet, lookup_insert_eq.
  by eexists.
Qed.

(* ===================================================================== *)
(** ** Deleting *)
(* ===================================================================== *)

Lemma candidates_with_resultMap f keys st :
  candidates keys (with_resultMap f st) = candidates keys st.
Proof. by apply candidates_same_keyMap. Qed.

(** X8.  After [delete(T)] on a non-empty tuple, in any state and whatever
    it returned, [T] is not found: [get(T)] returns [undefined], [has(T)]
    returns [false] and a second [delete(T)] returns [false] and changes
    nothing. *)
Theorem delete_then_lookup_finds_nothing (st : State) key keys :
  ∃ existed st',
    CompositeWeakMap.delete (key :: keys) st = (Ok existed, st') ∧
    CompositeWeakMap.get (key :: keys) st' = (Ok JsUndefined, st') ∧
    CompositeWeakMap.has (key :: keys) st' = (Ok false, st') ∧
    CompositeWeakMap.delete (key :: keys) st' = (Ok false, st').
Proof.
  rewrite delete_run.
  destruct (head (pivot (candidates (key :: keys) st))) as [ck|] eqn:E.
  - eexists _, _. split; [done|].
    rewrite get_run, has_run, delete_run, candidates_with_resultMap, E.
    cbn [resultMap with_resultMap]. rewrite lookup_delete_eq.
    assert (bool_decide (is_Some (@None JsValue)) = false) as ->
      by (apply bool_decide_eq_false; by intros [? ?]).
    split; [done|]. split; [done|]. f_equal.
    apply State_eq; try done. cbn [resultMap with_resultMap].
    by rewrite delete_delete_eq.
  - eexists _, _. split; [done|].
    by rewrite get_run, has_run, delete_run, E.
Qed.

(** X18.  [delete(T)] right after [set(T, v)] returns [true], and it only
    removes the value: the candidate sets written by [set] stay, so the
    handle is still resolved, and a later [set(T, w)] stores [w] under the
    same handle. *)
Theorem delete_after_set_returns_true_and_keeps_the_index (st : State)
    key keys value value' :
  ∃ st1 st2 st3 compositeKey,
    CompositeWeakMap.set (key :: keys) value st = (Ok tt, st1) ∧
    CompositeWeakMap.delete (key :: keys) st1 = (Ok true, st2) ∧
    compositeKeyMap st2 = compositeKeyMap st1 ∧
    CompositeWeakMap.getCompositeKey (key :: keys) st2 = Ok (Some compositeKey) ∧
    resultMap st2 !! compositeKey = None ∧
    CompositeWeakMap.set (key :: keys) value' st2 = (Ok tt, st3) ∧
    resultMap st3 !! compositeKey = Some value'.
Proof.
  set (T := key :: keys). set (ck := (resolveOrMint T st).1).
  set (st1 := afterSet T value st).
  exists st1, (with_resultMap (base.delete ck) st1),
         (afterSet T value' (with_resultMap (base.delete ck) st1)), ck.
  assert (head (pivot (candidates T st1)) = Some ck) as Hres
    by apply resolve_after_set.
  assert (resolveOrMint T (with_resultMap (base.delete ck) st1) =
          (ck, with_resultMap (base.delete ck) st1)) as Hmint.
  { unfold resolveOrMint. by rewrite candidates_with_resultMap, Hres. }
  split; [apply set_run|]. split.
  { unfold T. rewrite delete_run. fold T. rewrite Hres. f_equal. f_equal.
    apply bool_decide_eq_true. unfold st1.
    rewrite resultMap_afterSet, lookup_insert_eq. by eexists. }
  split; [done|]. split.
  { unfold T. rewrite getCompositeKey_head. fold T.
    by rewrite candidates_with_resultMap, Hres. }
  split; [cbn [resultMap with_resultMap]; apply lookup_delete_eq|].
  split; [apply set_run|].
  rewrite resultMap_afterSet, Hmint. cbn [fst]. apply lookup_insert_eq.
Qed.

(* ===================================================================== *)
(** ** A map with one binding *)
(* ===================================================================== *)

Lemma lists_differ (l1 : list PartialKey) : ∀ l2,
  l1 ≠ l2 →
  length l1 ≠ length l2 ∨
  ∃ i x y, l1 !! i = Some x ∧ l2 !! i = Some y ∧ x ≠ y.
Proof.
  induction l1 as [|x l1 IH]; intros [|y l2] Hne; simpl.
  - done.
  - by left.
  - by left.
  - destruct (decide (x = y)) as [->|Hxy].
    + destruct (IH l2) as [Hlen|(i & a & b & Ha & Hb & Hab)].
      * congruence.
      * left. lia.
      * right. by exists (S i), a, b.
    + right. by exists 0, x, y.
Qed.

(** X11.  On a map that holds one binding, lookups are exact: after
    [set(T1, v)] on a new map, every non-empty tuple other than [T1]
    (another length, another order, another object at some index) is not
    found by [get], [has] or [delete]. *)
Theorem single_binding_is_found_by_its_tuple_only fresh key keys value :
  ∃ st',
    CompositeWeakMap.set (key :: keys) value (newCompositeWeakMap fresh) =
      (Ok tt, st') ∧
    CompositeWeakMap.get (key :: keys) st' = (Ok value, st') ∧
    ∀ key2 keys2,
      key2 :: keys2 ≠ key :: keys →
      CompositeWeakMap.get (key2 :: keys2) st' = (Ok JsUndefined, st') ∧
      CompositeWeakMap.has (key2 :: keys2) st' = (Ok false, st') ∧
      CompositeWeakMap.delete (key2 :: keys2) st' = (Ok false, st').
Proof.
  set (T := key :: keys). set (st := newCompositeWeakMap fresh).
  exists (afterSet T value st). split; [apply set_run|]. split.
  { unfold T. rewrite get_run, resolve_after_set. f_equal. f_equal.
    by rewrite resultMap_afterSet, lookup_insert_eq. }
  intros key2 keys2 Hne. set (T2 := key2 :: keys2) in *.
  assert (∃ i k, T2 !! i = Some k ∧
            (k, createPartialKeyPosition i (length T2)) ∉ places T)
    as (i & k & Hi & Hplace).
  { destruct (lists_differ T2 T Hne) as [Hlen|(i & x & y & Hx & Hy & Hxy)].
    - exists 0, key2. split; [done|].
      intros (j & _ & Hpos)%elem_of_places.
      apply createPartialKeyPosition_inj in Hpos as [_ ?]. done.
    - exists i, x. split; [done|].
      intros (j & Hj & Hpos)%elem_of_places.
      apply createPartialKeyPosition_inj in Hpos as [-> _]. congruence. }
  assert (head (pivot (candidates T2 (afterSet T value st))) = None) as Hnone.
  { apply (pivot_empty_of_empty_candidate _ key2 keys2 i k Hi).
    rewrite lookupSet_afterSet, decide_False by done.
    apply lookupSet_new. }
  subst T2. by rewrite get_run, has_run, delete_run, Hnone.
Qed.

(* ===================================================================== *)
(** ** Further properties of the cleanup callback *)
(* ===================================================================== *)

(** The three ways a cleanup can go. *)
Lemma finalize_cases r i st :
  Host.finalize r i st = (Ok tt, st) ∨
  (∃ reg cell,
     registryHeap st !! r = Some reg ∧ registry_cells reg !! i = Some cell ∧
     Host.finalize r i st =
       (Ok tt, with_registryHeap (alter (with_cells (base.delete i)) r) st)) ∨
  (∃ reg cell entries sets,
     registryHeap st !! r = Some reg ∧
     registry_cells reg !! i = Some cell ∧
     cell_target cell ∈ collected st ∧
     (weak_target (partialKeyRef (cell_heldValue cell)) ∉ collected st) ∧
     compositeKeyMap st !! weak_target (partialKeyRef (cell_heldValue cell)) =
       Some entries ∧
     entries !! partialKeyPos (cell_heldValue cell) = Some sets).
Proof.
  destruct (registryHeap st !! r) as [reg|] eqn:Hreg;
    [|left; apply finalize_idle; congruence].
  destruct (registry_cells reg !! i) as [cell|] eqn:Hcell;
    [|left; apply finalize_idle; congruence].
  destruct (decide (cell_target cell ∈ collected st)) as [Htarget|Htarget];
    [|left; apply finalize_idle; congruence].
  destruct (decide (weak_target (partialKeyRef (cell_heldValue cell))
                      ∈ collected st)) as [Hdead|Hlive].
  { right; left. exists reg, cell. split; [done|]. split; [done|].
    eapply finalize_dead; eauto. }
  destruct (compositeKeyMap st !! weak_target (partialKeyRef (cell_heldValue cell)))
    as [entries|] eqn:Hentries.
  2:{ right; left. exists reg, cell. split; [done|]. split; [done|].
      eapply finalize_dead; eauto.
      right. unfold lookupSetOpt. by rewrite Hentries. }
  destruct (entries !! partialKeyPos (cell_heldValue cell)) as [sets|] eqn:Hsets.
  2:{ right; left. exists reg, cell. split; [done|]. split; [done|].
      eapply finalize_dead; eauto.
      right. unfold lookupSetOpt. by rewrite Hentries. }
  right; right. by exists reg, cell, entries, sets.
Qed.

(** X12.  A cleanup callback whose key has been collected too (its weak
    reference is empty), or whose key is no longer indexed at the carried
    position, returns at once: the registration that fired is gone, and
    nothing else changes; no token is unregistered and the registry stays
    in [registries] if it was there. *)
Theorem cleanup_for_a_dead_key_only_consumes_the_registration
    (st : State) finalizationRegistry i reg cell
    (Hreg : registryHeap st !! finalizationRegistry = Some reg)
    (Hcell : registry_cells reg !! i = Some cell)
    (Htarget : cell_target cell ∈ collected st)
    (Hdead : weak_target (partialKeyRef (cell_heldValue cell)) ∈ collected st ∨
             lookupSetOpt st (cell_heldValue cell) = None) :
  ∃ st',
    Host.finalize finalizationRegistry i st = (Ok tt, st') ∧
    compositeKeyMap st' = compositeKeyMap st ∧
    resultMap st' = resultMap st ∧
    registries st' = registries st ∧
    cellsOf st' finalizationRegistry = base.delete i (registry_cells reg) ∧
    ∀ other, other ≠ finalizationRegistry →
      registryHeap st' !! other = registryHeap st !! other.
Proof.
  eexists. split; [by eapply finalize_dead|].
  split; [done|]. split; [done|]. split; [done|]. split.
  - unfold cellsOf. cbn [registryHeap with_registryHeap].
    by rewrite lookup_alter_eq, Hreg.
  - intros other Hne. cbn [registryHeap with_registryHeap].
    by rewrite lookup_alter_ne.
Qed.

(** The theorem above, for the binding of [first; second; third] once
    [second] and [first] have both been collected: the registration on
    [second] that carries [first] fires. *)
Lemma cleanup_for_a_dead_key_only_consumes_the_registration_witness :
  ∃ st',
    Host.finalize Scenario.tripleRegistry 0 MoreScenarios.tripleTwoCollected =
      (Ok tt, st') ∧
    compositeKeyMap st' = compositeKeyMap MoreScenarios.tripleTwoCollected ∧
    resultMap st' = resultMap MoreScenarios.tripleTwoCollected ∧
    registries st' = registries MoreScenarios.tripleTwoCollected ∧
    cellsOf st' Scenario.tripleRegistry =
      base.delete 0 (loopCells [1; 2; 3] 3 12 (entries [1; 2; 3])) ∧
    ∀ other, other ≠ Scenario.tripleRegistry →
      registryHeap st' !! other =
      registryHeap MoreScenarios.tripleTwoCollected !! other.
Proof.
  apply (cleanup_for_a_dead_key_only_consumes_the_registration
           MoreScenarios.tripleTwoCollected Scenario.tripleRegistry 0
           {| registry_compositeKey := Scenario.tripleHandle;
              registry_cells :=
                loopCells [1; 2; 3] 3 12 (entries [1; 2; 3]) |}
           (watch 3 12 0 Scenario.first Scenario.second)).
  - by_computation.
  - by_computation.
  - by_evaluation.
  - left. by_evaluation.
Defined.

(** X13.  Whatever registration a cleanup callback runs for, it returns
    without throwing, it never touches [resultMap] (the value stays stored
    under its handle), it leaves every other registry and its
    registrations alone, it removes no other registry from [registries],
    and it registers nothing: the registrations left in its own registry
    are a sublist of the ones it had. *)
Theorem cleanup_leaves_values_and_other_registries (st : State)
    finalizationRegistry i :
  ∃ st',
    Host.finalize finalizationRegistry i st = (Ok tt, st') ∧
    resultMap st' = resultMap st ∧
    collected st' = collected st ∧
    next st' = next st ∧
    cellsOf st' finalizationRegistry `sublist_of`
      cellsOf st finalizationRegistry ∧
    ∀ other, other ≠ finalizationRegistry →
      registryHeap st' !! other = registryHeap st !! other ∧
      (other ∈ registries st' ↔ other ∈ registries st).
Proof.
  destruct (finalize_cases finalizationRegistry i st)
    as [Hrun|[(reg & cell & Hreg & Hcell & Hrun)
             |(reg & cell & entries & sets & Hreg & Hcell & Ht & Hl & He & Hs)]].
  - exists st. by repeat split.
  - eexists. split; [exact Hrun|]. repeat split; try done.
    + unfold cellsOf. cbn [registryHeap with_registryHeap].
      rewrite lookup_alter_eq, Hreg. apply sublist_delete.
    + cbn [registryHeap with_registryHeap]. by rewrite lookup_alter_ne.
  - eexists. split; [by eapply finalize_live|]. repeat split; try done.
    + unfold cellsOf. cbn [registryHeap].
      rewrite !lookup_alter_eq, Hreg. cbn.
      etrans; [apply sublist_filter|apply sublist_delete].
    + cbn [registryHeap]. by rewrite !lookup_alter_ne.
    + cbn [registries]. intros [? _]%elem_of_difference. done.
    + cbn [registries]. intros Hin. apply elem_of_difference.
      split; [done|]. intros Heq%elem_of_singleton. done.
Qed.

Lemma JsSet_delete_elem s x y : y ∈ JsSet.delete s x ↔ y ≠ x ∧ y ∈ s.
Proof. unfold JsSet.delete. by rewrite list_elem_of_filter. Qed.

(** X14.  A cleanup callback that finds its key alive and indexed removes
    one edge: the handle of the binding is no longer a candidate for that
    key at the carried position, the other handles of that set stay,
    every other candidate set is unchanged, and the value of the binding
    is still in [resultMap]. *)
Theorem cleanup_removes_one_candidate_edge
    (st : State) finalizationRegistry i reg cell entries sets
    (Hreg : registryHeap st !! finalizationRegistry = Some reg)
    (Hcell : registry_cells reg !! i = Some cell)
    (Htarget : cell_target cell ∈ collected st)
    (Hlive : weak_target (partialKeyRef (cell_heldValue cell)) ∉ collected st)
    (Hentries :
       compositeKeyMap st !! weak_target (partialKeyRef (cell_heldValue cell)) =
         Some entries)
    (Hsets : entries !! partialKeyPos (cell_heldValue cell) = Some sets) :
  ∃ st',
    Host.finalize finalizationRegistry i st = (Ok tt, st') ∧
    (registry_compositeKey reg ∉
       lookupSet st' (weak_target (partialKeyRef (cell_heldValue cell)))
                 (partialKeyPos (cell_heldValue cell))) ∧
    (∀ handle, handle ≠ registry_compositeKey reg →
       (handle ∈ lookupSet st' (weak_target (partialKeyRef (cell_heldValue cell)))
                   (partialKeyPos (cell_heldValue cell)) ↔
        handle ∈ sets)) ∧
    (∀ k p,
       (k, p) ≠ (weak_target (partialKeyRef (cell_heldValue cell)),
                 partialKeyPos (cell_heldValue cell)) →
       lookupSet st' k p = lookupSet st k p) ∧
    resultMap st' = resultMap st.
Proof.
  eexists. split; [by eapply finalize_live|].
  assert (∀ st0 : State,
            lookupIn (<[weak_target (partialKeyRef (cell_heldValue cell)) :=
                          <[partialKeyPos (cell_heldValue cell) :=
                              JsSet.delete sets (registry_compositeKey reg)]>
                            entries]> (compositeKeyMap st))
                     (weak_target (partialKeyRef (cell_heldValue cell)))
                     (partialKeyPos (cell_heldValue cell)) =
            JsSet.delete sets (registry_compositeKey reg)) as Hhere.
  { intros _. unfold lookupIn. rewrite lookup_insert_eq; simpl.
    by rewrite lookup_insert_eq. }
  unfold lookupSet. cbn [compositeKeyMap resultMap].
  split; [|split; [|split; [|done]]].
  - rewrite (Hhere st), JsSet_delete_elem. by intros [? _].
  - intros handle Hne. rewrite (Hhere st), JsSet_delete_elem.
    split; [by intros [_ ?]|by intros ?; split].
  - intros k p Hne. unfold lookupIn.
    destruct (decide (k = weak_target (partialKeyRef (cell_heldValue cell))))
      as [->|Hk].
    + rewrite lookup_insert_eq, Hentries; simpl.
      rewrite lookup_insert_ne; [done|]. congruence.
    + by rewrite lookup_insert_ne.
Qed.

(** The theorem above, for the first cleanup of the binding of
    [first; second; third] once [second] has been collected. *)
Lemma cleanup_removes_one_candidate_edge_witness :
  ∃ st',
    Host.finalize Scenario.tripleRegistry 0
      (run (Collect Scenario.second) Scenario.triple) = (Ok tt, st') ∧
    (Scenario.tripleHandle ∉ lookupSet st' Scenario.first "1/3") ∧
    (∀ handle, handle ≠ Scenario.tripleHandle →
       (handle ∈ lookupSet st' Scenario.first "1/3" ↔
        handle ∈ [Scenario.tripleHandle])) ∧
    (∀ k p, (k, p) ≠ (Scenario.first, "1/3"%string) →
       lookupSet st' k p =
       lookupSet (run (Collect Scenario.second) Scenario.triple) k p) ∧
    resultMap st' = resultMap (run (Collect Scenario.second) Scenario.triple).
Proof.
  apply (cleanup_removes_one_candidate_edge
           (run (Collect Scenario.second) Scenario.triple)
           Scenario.tripleRegistry 0
           {| registry_compositeKey := Scenario.tripleHandle;
              registry_cells :=
                loopCells [1; 2; 3] 3 12 (entries [1; 2; 3]) |}
           (watch 3 12 0 Scenario.first Scenario.second)
           {["1/3" := [Scenario.tripleHandle]]}
           [Scenario.tripleHandle]).
  - by_computation.
  - by_computation.
  - by_evaluation.
  - by_evaluation.
  - by_computation.
  - by_computation.
Defined.

(* ===================================================================== *)
(** ** How many registrations [set] makes *)
(* ===================================================================== *)

Lemma filter_other_length (k : PartialKey) (l : list PartialKey) :
  NoDup l → k ∈ l →
  length (filter (λ other, k ≠ other) l) = length l - 1.
Proof.
  induction 1 as [|y l Hy Hnd IH]; intros Hin; [by apply not_elem_of_nil in Hin|].
  destruct (decide (k = y)) as [->|Hky].
  - rewrite filter_cons_False by (by intros ?).
    replace (filter (λ other, y ≠ other) l) with l; [simpl; lia|].
    clear IH Hnd Hin. induction l as [|z l IHl]; [done|].
    apply not_elem_of_cons in Hy as [Hyz Hy].
    rewrite filter_cons_True by done. f_equal. by apply IHl.
  - rewrite filter_cons_True by done.
    apply elem_of_cons in Hin as [?|Hin]; [done|].
    simpl. rewrite IH by done.
    destruct l; [by apply not_elem_of_nil in Hin|simpl; lia].
Qed.

Lemma loopCells_length keys size es : ∀ token,
  NoDup keys → (∀ entry, entry ∈ es → entry.2 ∈ keys) →
  length (loopCells keys size token es) = length es * (length keys - 1).
Proof.
  induction es as [|[index key] es IH]; intros token Hnd Hall; [done|].
  simpl. rewrite length_app, IH by (try done; intros; apply Hall; by right).
  unfold entryCells. rewrite length_fmap, filter_other_length; [done..|].
  apply (Hall (index, key)). by left.
Qed.

(** X15.  For a tuple of [n] pairwise distinct keys, [set] creates one
    registry and makes [n * (n - 1)] registrations in it: one per ordered
    pair of keys. *)
Theorem set_makes_a_registration_per_ordered_pair (st : State) key keys value
    (Hdistinct : NoDup (key :: keys)) :
  ∃ st' finalizationRegistry reg,
    CompositeWeakMap.set (key :: keys) value st = (Ok tt, st') ∧
    registries st' = {[finalizationRegistry]} ∪ registries st ∧
    registryHeap st' !! finalizationRegistry = Some reg ∧
    length (registry_cells reg) =
      length (key :: keys) * (length (key :: keys) - 1).
Proof.
  set (T := key :: keys) in *.
  eexists (afterSet T value st), _, _. split; [apply set_run|].
  rewrite afterSet_registries, afterSet_registryHeap.
  split; [done|]. rewrite lookup_insert_eq. split; [done|].
  cbn [registry_cells]. rewrite loopCells_length; [|done|].
  - unfold entries. by rewrite length_imap.
  - intros [index k] Hin. apply list_elem_of_lookup in Hin as [n Hn].
    apply entries_lookup in Hn as [_ Hn]. by eapply list_elem_of_lookup_2.
Qed.

(** The theorem above, for [first; second; third] on a new map: six
    registrations. *)
Lemma set_makes_a_registration_per_ordered_pair_witness :
  ∃ st' finalizationRegistry reg,
    CompositeWeakMap.set [Scenario.first; Scenario.second; Scenario.third]
      (JsString "x") Scenario.empty = (Ok tt, st') ∧
    registries st' = {[finalizationRegistry]} ∪ registries Scenario.empty ∧
    registryHeap st' !! finalizationRegistry = Some reg ∧
    length (registry_cells reg) = 3 * (3 - 1).
Proof.
  apply (set_makes_a_registration_per_ordered_pair Scenario.empty
           Scenario.first [Scenario.second; Scenario.third] (JsString "x")).
  by_evaluation.
Defined.

(* ===================================================================== *)
(** ** A binding whose second key is collected *)
(* ===================================================================== *)

Lemma resolveOrMint_new fresh key keys :
  resolveOrMint (key :: keys) (newCompositeWeakMap fresh) =
  (fresh, with_next S (newCompositeWeakMap fresh)).
Proof.
  unfold resolveOrMint.
  by rewrite (pivot_empty_of_empty_candidate _ key keys 0 key eq_refl
                (lookupSet_new _ _ _)).
Qed.

Lemma pair_cells (a b : PartialKey) token :
  a ≠ b →
  loopCells [a; b] 2 token (entries [a; b]) =
  [watch 2 token 0 a b; watch 2 (S token) 1 b a].
Proof.
  intros Hab. unfold entries; simpl. unfold entryCells.
  rewrite (filter_cons_False (λ other, a ≠ other)) by (by intros ?).
  rewrite (filter_cons_True (λ other, a ≠ other)) by done.
  rewrite (filter_cons_True (λ other, b ≠ other)) by done.
  rewrite (filter_cons_False (λ other, b ≠ other)) by (by intros ?).
  by rewrite !filter_nil.
Qed.

Lemma lookupIn_delete keyMap (key k : PartialKey) p :
  lookupIn (base.delete key keyMap) k p =
  if decide (k = key) then [] else lookupIn keyMap k p.
Proof.
  unfold lookupIn. case_decide as Hk.
  - subst. by rewrite lookup_delete_eq.
  - by rewrite lookup_delete_ne.
Qed.

(** X16.  The leak the registrations are there to prevent, on a new map
    and two distinct objects [a] and [b]: after [set([a, b], v)], when [b]
    is collected and the cleanup of the registration on [b] runs, the
    handle is removed from the candidates of [a], the registry leaves
    [registries], every candidate set of the map is empty again, and no
    tuple is found, in particular none that pairs [a] with another
    object. *)
Theorem cleanup_after_partner_collected fresh (a b : PartialKey) value
    (Hab : a ≠ b) :
  ∃ st1 st2 st3 finalizationRegistry cell,
    CompositeWeakMap.set [a; b] value (newCompositeWeakMap fresh) =
      (Ok tt, st1) ∧
    CompositeWeakMap.get [a; b] st1 = (Ok value, st1) ∧
    Host.collect b st1 = (Ok tt, st2) ∧
    finalizationRegistry ∈ registries st2 ∧
    cellsOf st2 finalizationRegistry !! 0 = Some cell ∧
    cell_target cell = b ∧
    Host.finalize finalizationRegistry 0 st2 = (Ok tt, st3) ∧
    (finalizationRegistry ∉ registries st3) ∧
    (∀ k p, lookupSet st3 k p = []) ∧
    (∀ key keys,
       CompositeWeakMap.get (key :: keys) st3 = (Ok JsUndefined, st3)).
Proof.
  set (st0 := newCompositeWeakMap fresh). set (T := [a; b]).
  set (st1 := afterSet T value st0).
  set (pos := createPartialKeyPosition 0 2).
  pose proof (resolveOrMint_new fresh a [b]) as Hmint. fold st0 T in Hmint.
  assert (registryHeap st1 !! S fresh =
          Some {| registry_compositeKey := fresh;
                  registry_cells :=
                    [watch 2 (S (S fresh)) 0 a b;
                     watch 2 (S (S (S fresh))) 1 b a] |}) as Hreg.
  { unfold st1. rewrite afterSet_registryHeap, Hmint.
    cbn [fst snd next with_next]. rewrite lookup_insert_eq.
    by rewrite (pair_cells a b) by done. }
  assert (∀ k p, lookupSet st1 k p =
                 if decide ((k, p) ∈ places T) then [fresh] else []) as Hst1.
  { intros k p. unfold st1. rewrite lookupSet_afterSet, Hmint.
    cbn [fst]. unfold st0. rewrite lookupSet_new. done. }
  assert (indexedAt (compositeKeyMap st1) fresh (a, pos))
    as (posMap & sets & Ha & Hpos & _).
  { unfold st1. rewrite compositeKeyMap_afterSet, Hmint. cbn [fst].
    apply (proj2 (foldl_entryMap_indexed fresh (length T) (entries T)
                    (compositeKeyMap st0)) (0, a)).
    apply list_elem_of_lookup. exists 0. done. }
  cbn [fst snd] in Ha, Hpos.
  assert (sets = [fresh]) as ->.
  { pose proof (Hst1 a pos) as H. unfold lookupSet, lookupIn in H.
    rewrite Ha in H; simpl in H. rewrite Hpos in H; simpl in H.
    rewrite decide_True in H; [done|].
    apply elem_of_places. by exists 0. }
  set (st2 := with_collected (λ s, {[b]} ∪ s)
                (with_compositeKeyMap (base.delete b) st1)).
  pose (cell := watch 2 (S (S fresh)) 0 a b).
  pose (reg := {| registry_compositeKey := fresh;
                  registry_cells :=
                    [watch 2 (S (S fresh)) 0 a b;
                     watch 2 (S (S (S fresh))) 1 b a] |}).
  assert (cell_target cell ∈ collected st2) as Htarget.
  { cbn. apply elem_of_union. left. by apply elem_of_singleton. }
  assert (weak_target (partialKeyRef (cell_heldValue cell)) ∉ collected st2)
    as Hlive.
  { cbn. intros [Hin|Hin]%elem_of_union.
    - apply elem_of_singleton in Hin. done.
    - revert Hin. unfold st1, afterSet, afterSetCompositeKey.
      cbn. rewrite Hmint. cbn. apply not_elem_of_empty. }
  assert (compositeKeyMap st2
            !! weak_target (partialKeyRef (cell_heldValue cell)) = Some posMap)
    as Hentries.
  { change (compositeKeyMap st2 !! a = Some posMap).
    change (compositeKeyMap st2) with (base.delete b (compositeKeyMap st1)).
    by rewrite lookup_delete_ne. }
  assert (compositeKeyMap st2 !! a = Some posMap) as Ha2 by exact Hentries.
  pose proof (finalize_live (S fresh) 0 st2 reg cell posMap [fresh]
                Hreg eq_refl Htarget Hlive Hentries Hpos) as Hfin.
  cbn [cell watch cell_heldValue partialKeyRef weak_target partialKeyPos
       unregisterToken reg registry_compositeKey] in Hfin.
  fold pos in Hfin.
  eexists st1, st2, _, (S fresh), cell.
  split; [apply set_run|]. split.
  { unfold st1, T. rewrite get_run, resolve_after_set. f_equal. f_equal.
    by rewrite resultMap_afterSet, lookup_insert_eq. }
  split; [done|]. split.
  { change (registries st2) with (registries st1). unfold st1.
    rewrite afterSet_registries, Hmint. cbn [snd next with_next].
    apply elem_of_union. left. by apply elem_of_singleton. }
  split.
  { unfold cellsOf. change (registryHeap st2) with (registryHeap st1).
    unfold ObjRef in *. by rewrite Hreg. }
  split; [done|]. split; [exact Hfin|]. split.
  { cbn [registries]. apply not_elem_of_difference. right.
    by apply elem_of_singleton. }
  assert (∀ k p,
    lookupIn (<[a := <[pos := JsSet.delete [fresh] fresh]> posMap]>
                (compositeKeyMap st2)) k p = []) as Hempty.
  { intros k p.
    assert (JsSet.delete [fresh] fresh = []) as ->.
    { unfold JsSet.delete. by rewrite filter_cons_False by (by intros ?). }
    destruct (decide ((k, p) = (a, pos))) as [[= -> ->]|Hne].
    { unfold lookupIn. rewrite lookup_insert_eq; simpl.
      by rewrite lookup_insert_eq. }
    transitivity (lookupIn (compositeKeyMap st2) k p).
    { unfold lookupIn. destruct (decide (k = a)) as [->|Hk].
      - rewrite lookup_insert_eq, Ha2. cbn [mbind option_bind].
        rewrite lookup_insert_ne; [done|]. congruence.
      - by rewrite lookup_insert_ne. }
    change (compositeKeyMap st2) with (base.delete b (compositeKeyMap st1)).
    rewrite lookupIn_delete. case_decide as Hkb; [done|].
    fold (lookupSet st1 k p). rewrite Hst1.
    rewrite decide_False; [done|].
    intros ([|[|i]] & Hi & Hp)%elem_of_places; simpl in Hi.
    - injection Hi as <-. apply Hne. rewrite Hp. reflexivity.
    - injection Hi as <-. done.
    - done. }
  split; [exact Hempty|].
  intros key keys. rewrite get_run.
  rewrite (pivot_empty_of_empty_candidate _ key keys 0 key eq_refl); [done|].
  apply Hempty.
Qed.

(** The theorem above, for the objects [first] and [second]. *)
Lemma cleanup_after_partner_collected_witness :
  ∃ st1 st2 st3 finalizationRegistry cell,
    CompositeWeakMap.set [Scenario.first; Scenario.second] (JsString "v")
      (newCompositeWeakMap 10) = (Ok tt, st1) ∧
    CompositeWeakMap.get [Scenario.first; Scenario.second] st1 =
      (Ok (JsString "v"), st1) ∧
    Host.collect Scenario.second st1 = (Ok tt, st2) ∧
    finalizationRegistry ∈ registries st2 ∧
    cellsOf st2 finalizationRegistry !! 0 = Some cell ∧
    cell_target cell = Scenario.second ∧
    Host.finalize finalizationRegistry 0 st2 = (Ok tt, st3) ∧
    (finalizationRegistry ∉ registries st3) ∧
    (∀ k p, lookupSet st3 k p = []) ∧
    (∀ key keys,
       CompositeWeakMap.get (key :: keys) st3 = (Ok JsUndefined, st3)).
Proof.
  apply (cleanup_after_partner_collected 10 Scenario.first Scenario.second
           (JsString "v")).
  discriminate.
Defined.

(* ===================================================================== *)
(** ** Registrations pile up and stay well formed *)
(* ===================================================================== *)

Lemma loopCells_shape keys size es : ∀ token token',
  watchShape <$> loopCells keys size token es =
  watchShape <$> loopCells keys size token' es.
Proof.
  induction es as [|[index key] es IH]; intros token token'; [done|].
  simpl. rewrite !fmap_app. f_equal; [|apply IH].
  unfold entryCells. rewrite <- !list_fmap_compose. done.
Qed.

Lemma next_afterSet keys value st :
  next (afterSet keys value st) =
  length keys + S (next (resolveOrMint keys st).2).
Proof. done. Qed.

(** X19.  Setting a tuple that is already bound makes a second registry
    with the same watches again (same targets, keys and positions, new
    tokens), for the same handle; the registry of the first [set] stays in
    [registries] with all its registrations. *)
Theorem set_again_adds_a_second_registry (st : State) key keys value1 value2 :
  ∃ st1 st2 registry1 registry2 reg1 reg2,
    CompositeWeakMap.set (key :: keys) value1 st = (Ok tt, st1) ∧
    CompositeWeakMap.set (key :: keys) value2 st1 = (Ok tt, st2) ∧
    registry1 ≠ registry2 ∧
    registries st2 = {[registry2]} ∪ ({[registry1]} ∪ registries st) ∧
    registryHeap st1 !! registry1 = Some reg1 ∧
    registryHeap st2 !! registry1 = Some reg1 ∧
    registryHeap st2 !! registry2 = Some reg2 ∧
    registry_compositeKey reg2 = registry_compositeKey reg1 ∧
    watchShape <$> registry_cells reg2 = watchShape <$> registry_cells reg1.
Proof.
  set (T := key :: keys).
  set (st1 := afterSet T value1 st). set (st2 := afterSet T value2 st1).
  set (r1 := next (resolveOrMint T st).2).
  pose proof (resolveOrMint_afterSet key keys value1 st) as Hmint.
  fold T st1 in Hmint.
  assert (next st1 = length T + S r1) as Hnext by apply next_afterSet.
  eexists st1, st2, r1, (next st1), _, _.
  split; [apply set_run|]. split; [apply set_run|].
  split; [lia|]. split.
  { unfold st2. rewrite afterSet_registries, Hmint. cbn [snd].
    unfold st1 at 2. by rewrite afterSet_registries. }
  split.
  { unfold st1. rewrite afterSet_registryHeap. apply lookup_insert_eq. }
  split.
  { unfold st2. rewrite afterSet_registryHeap, Hmint. cbn [snd fst].
    rewrite lookup_insert_ne by lia.
    unfold st1. rewrite afterSet_registryHeap. apply lookup_insert_eq. }
  split.
  { unfold st2. rewrite afterSet_registryHeap, Hmint. cbn [snd fst].
    apply lookup_insert_eq. }
  split; [done|]. cbn [registry_cells]. apply loopCells_shape.
Qed.

Lemma watch_wellFormed size token index key target :
  index < size → key ≠ target →
  wellFormedCell (watch size token index key target).
Proof.
  intros Hlt Hne. split; [done|]. split; [by intros ?|].
  by exists index, size.
Qed.

Lemma run_registryHeap ev st r reg :
  registryHeap (run ev st) !! r = Some reg →
  (∃ reg', registryHeap st !! r = Some reg' ∧
           ∀ cell, cell ∈ registry_cells reg → cell ∈ registry_cells reg') ∨
  (∃ key keys value,
     ev = CallSet (key :: keys) value ∧
     registry_cells reg =
       loopCells (key :: keys) (length (key :: keys))
         (S (next (resolveOrMint (key :: keys) st).2))
         (entries (key :: keys))).
Proof.
  destruct ev as [keys|keys value|keys|keys|key|r' i]; simpl.
  - destruct keys; [|unfold exec; rewrite get_run]; eauto.
  - destruct keys as [|key keys]; [by eauto|].
    unfold exec. rewrite set_run. cbn [snd].
    rewrite afterSet_registryHeap.
    destruct (decide (r = next (resolveOrMint (key :: keys) st).2)) as [->|Hne].
    + rewrite lookup_insert_eq. intros [= <-]. right.
      by exists key, keys, value.
    + rewrite lookup_insert_ne by done. eauto.
  - destruct keys; [|unfold exec; rewrite has_run]; eauto.
  - destruct keys as [|key keys]; [by eauto|].
    unfold exec. rewrite delete_run. destruct (head _); eauto.
  - eauto.
  - unfold exec.
    destruct (finalize_cases r' i st)
      as [->|[(reg0 & cell & Hreg & Hcell & ->)
             |(reg0 & cell & entries & sets & Hreg & Hcell & Ht & Hl & He & Hs)]].
    + eauto.
    + cbn [snd registryHeap with_registryHeap].
      destruct (decide (r = r')) as [->|Hne].
      * rewrite lookup_alter_eq, Hreg. intros [= <-]. left.
        exists reg0. split; [done|]. intros c Hc. cbn in Hc.
        by eapply list_elem_of_delete_inv.
      * rewrite lookup_alter_ne by done. eauto.
    + rewrite (finalize_live _ _ _ _ _ _ _ Hreg Hcell Ht Hl He Hs).
      cbn [snd registryHeap].
      destruct (decide (r = r')) as [->|Hne].
      * rewrite !lookup_alter_eq, Hreg. intros [= <-]. left.
        exists reg0. split; [done|]. intros c Hc. cbn in Hc.
        apply list_elem_of_filter in Hc as [_ Hc].
        by eapply list_elem_of_delete_inv.
      * rewrite !lookup_alter_ne by done. eauto.
Qed.

(** X20.  After any sequence of calls, collections and cleanups on a new
    map, every pending registration of every registry is as
    [setCompositeKey] made it: registered under the token its payload
    carries (so the callback unregisters its own group), watching a key
    other than the one its payload refers to, and carrying the descriptor
    of an index inside a tuple. *)
Theorem registrations_stay_well_formed fresh evs :
  ∀ finalizationRegistry reg cell,
    registryHeap (runAll evs (newCompositeWeakMap fresh))
      !! finalizationRegistry = Some reg →
    cell ∈ registry_cells reg →
    wellFormedCell cell.
Proof.
  unfold runAll.
  assert (∀ st,
    (∀ r reg cell, registryHeap st !! r = Some reg →
                   cell ∈ registry_cells reg → wellFormedCell cell) →
    ∀ r reg cell,
      registryHeap (foldl (λ s ev, run ev s) st evs) !! r = Some reg →
      cell ∈ registry_cells reg → wellFormedCell cell) as Hinv.
  { induction evs as [|ev evs IH]; intros st Hst; [exact Hst|].
    apply IH. intros r reg cell Hreg Hcell.
    destruct (run_registryHeap ev st r reg Hreg)
      as [(reg' & Hreg' & Hsub)|(key & keys & value & _ & Hcells)].
    - eapply Hst; [exact Hreg'|]. by apply Hsub.
    - rewrite Hcells in Hcell.
      apply set_cells_elem in Hcell as (i & k & target & Hi & _ & Hne & ->).
      apply watch_wellFormed; [|done]. by eapply lookup_lt_Some. }
  apply Hinv. intros r reg cell Hreg.
  cbn [registryHeap newCompositeWeakMap] in Hreg.
  by rewrite lookup_empty in Hreg.
Qed.

(** The theorem above, for a registration still pending after the first
    cleanup of the binding of [first; second; third]. *)
Lemma registrations_stay_well_formed_witness :
  wellFormedCell (watch 3 13 1 Scenario.second Scenario.first).
Proof.
  apply (registrations_stay_well_formed 10
           [CallSet [Scenario.first; Scenario.second; Scenario.third]
              (JsString "x");
            Collect Scenario.second;
            Finalize Scenario.tripleRegistry 0]
           Scenario.tripleRegistry
           {| registry_compositeKey := Scenario.tripleHandle;
              registry_cells :=
                [watch 3 13 1 Scenario.second Scenario.first;
                 watch 3 13 1 Scenario.second Scenario.third;
                 watch 3 14 2 Scenario.third Scenario.first;
                 watch 3 14 2 Scenario.third Scenario.second] |}).
  - by_computation.
  - by_evaluation.
Defined.
